(** * wp.py: inverted index, boolean retrieval, ranking and n-gram fallback

    A shallow embedding of the indexing and retrieval code of [wp.py]
    ([FilterWords], [AnalyseQuery], [Index]) and the properties its
    specification states about it.

    Conventions.
    - A Python [str] is the list of its code points ([pystr]); string
      constants of the source are written out as code points, with the
      literal in a comment.
    - The SQLite table [postings] is the list of its rows, in insertion
      order; [SELECT document_id FROM postings WHERE term=?] keeps the rows
      whose [term] column equals the parameter.
    - A Python [set] of document ids is a [gset pystr]; a Python [dict] is
      an insertion-ordered association list ([Dict]), since the ranking
      loops iterate it in insertion order.
    - Python floats are read as real numbers; the values only numpy
      produces on a zero denominator (nan, inf) are separate constructors.
    - Exceptions are the [Raise] outcomes of the [result] monad. *)

From Stdlib Require Import Reals Lra.
From stdpp Require Import base option list strings pretty gmap sets.
From Equations Require Import Equations.

Open Scope nat_scope.

(** ** Python values *)

Definition codepoint := N.
Definition pystr := list codepoint.

(** An ASCII literal as a [pystr]. *)
Definition py (s : string) : pystr :=
  map Ascii.N_of_ascii (String.list_ascii_of_string s).

Inductive exn :=
  TypeError | KeyError | IndexError | ValueError | UnboundLocalError.

Inductive result (A : Type) :=
  | Ok (a : A)
  | Raise (e : exn).
Arguments Ok {A} a.
Arguments Raise {A} e.

(** [result] is an error monad; [x ← m; k] is stdpp's bind notation. *)
#[global] Instance result_ret : MRet result := λ A a, Ok a.
#[global] Instance result_bind : MBind result := λ A B k m,
  match m with
  | Ok a => k a
  | Raise e => Raise e
  end.

(** ** The postings table *)

Record posting := Posting {
  term : pystr;
  document_id : pystr;
  times : nat
}.

Definition postings := list posting.

(** The statement [SELECT document_id FROM postings WHERE term=?] with
    [fetchall()]: one result row per matching posting.  The statement has
    no [ORDER BY], so the order of the result rows is the engine's choice
    (SQLite reads them off the index [termindexs] once it exists, that
    is by document id); the model lists them in table order, and where a
    property below speaks of an order, it is the order of this list.  A
    result row is the 1-tuple [(document_id,)]; it is kept as its only
    field, so that [cand[0]] is the row itself. *)
Definition select_document_id (db : postings) (t : pystr) : list pystr :=
  map document_id (filter (λ p, term p = t) db).

(** [cands == None] for the list that [fetchall] returns: a list is never
    equal to [None]. *)
Definition is_None {A} (cands : list A) : bool := false.

(** [set(map(lambda c: c[0], cands))] *)
Definition set_of_cands (cands : list pystr) : gset pystr := list_to_set cands.

(** ** Index.search *)

(** [titles] starts as the list [[]] and becomes a set at the first term. *)
Inductive titles_val :=
  | TitlesList (l : list pystr)
  | TitlesSet (s : gset pystr).

(** [titles & temptitles]: defined on two sets, a [TypeError] on a list. *)
Definition titles_and (titles : titles_val) (temptitles : gset pystr)
  : result titles_val :=
  match titles with
  | TitlesSet s => Ok (TitlesSet (s ∩ temptitles))
  | TitlesList _ => Raise TypeError
  end.

(** The members of the returned value, whichever container it is. *)
Definition titles_members (v : titles_val) : gset pystr :=
  match v with
  | TitlesList l => list_to_set l
  | TitlesSet s => s
  end.

(** One iteration of [for term in terms], on the loop state
    [(titles, flag)]. *)
Definition search_step (db : postings) (st : titles_val * bool) (t : pystr)
  : result (titles_val * bool) :=
  let '(titles, flag) := st in
  let cands := select_document_id db t in
  if is_None cands then Ok (titles, flag)
  else
    let temptitles := set_of_cands cands in
    if flag then Ok (TitlesSet temptitles, false)
    else titles' ← titles_and titles temptitles; Ok (titles', flag).

Fixpoint search_loop (db : postings) (terms : list pystr)
  (st : titles_val * bool) : result (titles_val * bool) :=
  match terms with
  | [] => Ok st
  | t :: terms' => st' ← search_step db st t; search_loop db terms' st'
  end.

Definition search (db : postings) (terms : list pystr) : result titles_val :=
  '(titles, _) ← search_loop db terms (TitlesList [], true); Ok titles.

(** The documents having at least one posting for a term. *)
Definition docs_of (db : postings) (t : pystr) : gset pystr :=
  set_of_cands (select_document_id db t).

Definition has_posting (db : postings) (t d : pystr) : Prop :=
  ∃ p, p ∈ db ∧ term p = t ∧ document_id p = d.

(** The intersection of the document sets of [t :: ts]. *)
Definition docs_of_all (db : postings) (t : pystr) (ts : list pystr)
  : gset pystr :=
  foldl (λ acc u, acc ∩ docs_of db u) (docs_of db t) ts.

(** ** Index.ngrams_search *)

(** The outcome of a call together with the parameters of the [SELECT]
    statements it executed on the cursor, in order. *)
Record traced (A : Type) := Traced {
  queries : list pystr;
  outcome : result A
}.
Arguments Traced {A} queries outcome.
Arguments queries {A} t.
Arguments outcome {A} t.

(** [for term in ngrams]: the loop state is [(titles, is_first)], where
    [titles] is unbound ([None] here) until its first assignment; [log] is
    the list of statements executed so far.  The [return titles] sits in
    the loop body, and falling off the loop returns Python's [None]
    ([Ok None] here).  The statement reads the [postings] table. *)
Fixpoint ngrams_search_loop (db : postings) (ngrams : list pystr)
  (st : option (gset pystr) * bool) (log : list pystr)
  : traced (option (gset pystr)) :=
  match ngrams with
  | [] => Traced log (Ok None)
  | t :: ngrams' =>
      let cands := select_document_id db t in
      let log := log ++ [t] in
      if decide (length cands = 0) then ngrams_search_loop db ngrams' st log
      else
        let temptitles := set_of_cands cands in
        let '(titles, is_first) := st in
        Traced log
          (titles' ← (if is_first then Ok temptitles
                      else match titles with
                           | Some s => Ok (s ∩ temptitles)
                           | None => Raise UnboundLocalError
                           end);
           Ok (Some titles'))
  end.

Definition ngrams_search (db : postings) (ngrams : list pystr)
  : traced (option (gset pystr)) :=
  ngrams_search_loop db ngrams (None, true) [].

(** ** Python dictionaries *)

(** A [dict] keyed by strings, as the list of its items in insertion
    order.  [setitem] is [d[k] = v]: it replaces the value of a present key
    in place and appends an absent key. *)
Module Dict.
Definition t (V : Type) := list (pystr * V).

Definition empty {V} : t V := [].

Fixpoint get {V} (d : t V) (k : pystr) : option V :=
  match d with
  | [] => None
  | (k', v) :: d' => if decide (k' = k) then Some v else get d' k
  end.

(** [k in d] *)
Definition mem {V} (d : t V) (k : pystr) : bool :=
  match get d k with Some _ => true | None => false end.

(** [d[k]] as an expression *)
Definition getitem {V} (d : t V) (k : pystr) : result V :=
  match get d k with Some v => Ok v | None => Raise KeyError end.

Fixpoint setitem {V} (d : t V) (k : pystr) (v : V) : t V :=
  match d with
  | [] => [(k, v)]
  | (k', v') :: d' =>
      if decide (k' = k) then (k, v) :: d' else (k', v') :: setitem d' k v
  end.

Definition keys {V} (d : t V) : list pystr := map fst d.
Definition items {V} (d : t V) : list (pystr * V) := d.
End Dict.

(** ** Documents and tokens *)

(** The fields of a [WikipediaArticle] that the index reads. *)
Module WikipediaArticle.
Record t := Make {
  title : pystr;
  _text : pystr;
  opening_text : pystr
}.
Definition id (self : t) : pystr := title self.
Definition text (self : t) : pystr := _text self.
End WikipediaArticle.

(** A node of the external tokenizer ([natto]'s [MeCabNode]): whether it
    is a normal node, its comma-separated feature string and its surface
    form. *)
Record MeCabNode := {
  is_nor : bool;
  feature : pystr;
  surface : pystr
}.

(** [s.split(',')] *)
Fixpoint split_comma (s : pystr) : list pystr :=
  match s with
  | [] => [[]]
  | c :: s' =>
      if decide (c = 44%N) then [] :: split_comma s'
      else match split_comma s' with
           | f :: fs => (c :: f) :: fs
           | [] => [[c]]
           end
  end.

(** [l[i]] as an expression: an [IndexError] out of range. *)
Definition index {A} (l : list A) (i : nat) : result A :=
  match l !! i with Some x => Ok x | None => Raise IndexError end.

(** ** FilterWords *)

Module FilterWords.
(** '名詞' *)
Definition noun : pystr := [21517; 35422]%N.
(** 'サ変接続' *)
Definition verbal_noun : pystr := [12469; 22793; 25509; 32154]%N.
(** '一般' *)
Definition general : pystr := [19968; 33324]%N.
(** '形容動詞語幹' *)
Definition adjectival_noun_stem : pystr :=
  [24418; 23481; 21205; 35422; 35486; 24185]%N.
(** '固有名詞' *)
Definition proper_noun : pystr := [22266; 26377; 21517; 35422]%N.
(** '数' *)
Definition numeral : pystr := [25968]%N.
(** '形容詞' *)
Definition adjective : pystr := [24418; 23481; 35422]%N.
(** '動詞' *)
Definition verb : pystr := [21205; 35422]%N.
(** '自立' *)
Definition independent : pystr := [33258; 31435]%N.
(** '助詞' *)
Definition particle : pystr := [21161; 35422]%N.

(** [feature[1] == x], the subscript evaluated first. *)
Definition field1_is (feature : list pystr) (x : pystr) : result bool :=
  f1 ← index feature 1; Ok (bool_decide (f1 = x)).

(** [a or b], [b] evaluated only when [a] is false. *)
Definition or_else (a b : result bool) : result bool :=
  a ≫= λ x : bool, if x then Ok true else b.

Definition shouldBeIncluded (feature : list pystr) : result bool :=
  f0 ← index feature 0;
  if decide (f0 = noun) then
    or_else (field1_is feature verbal_noun)
      (or_else (field1_is feature general)
         (or_else (field1_is feature adjectival_noun_stem)
            (or_else (field1_is feature proper_noun)
               (field1_is feature numeral))))
    ≫= λ c : bool, if c then Ok true else Ok false
  else if decide (f0 = adjective) then
    field1_is feature independent
    ≫= λ c : bool, if c then Ok true else Ok false
  else if decide (f0 = verb) then
    field1_is feature independent
    ≫= λ c : bool, if c then Ok true else Ok false
  else Ok false.

Definition excludeParticles (features : list pystr) : result bool :=
  f0 ← index features 0; Ok (bool_decide (f0 ≠ particle)).
End FilterWords.

(** ** Index.generate *)

(** [features[6] if len(features) == 9 else node.surface] *)
Definition indexed_term (node : MeCabNode) (features : list pystr)
  : result pystr :=
  if decide (length features = 9) then index features 6
  else Ok (surface node).

(** [for node in parser.parse(...)], on the dictionary [dict] of the
    article. *)
Fixpoint count_loop (nodes : list MeCabNode) (dict : Dict.t nat)
  : result (Dict.t nat) :=
  match nodes with
  | [] => Ok dict
  | node :: nodes' =>
      if is_nor node then
        let features := split_comma (feature node) in
        t ← indexed_term node features;
        FilterWords.shouldBeIncluded features ≫= λ included : bool,
        if included then
          if Dict.mem dict t then
            v ← Dict.getitem dict t;
            count_loop nodes' (Dict.setitem dict t (v + 1))
          else count_loop nodes' (Dict.setitem dict t 1)
        else count_loop nodes' dict
      else count_loop nodes' dict
  end.

(** What a statement leaves behind: the table as the connection sees it,
    and whether the call returned or raised. *)
Definition effect : Type := postings * result unit.

(** [for term in dict.keys()]: the statement [INSERT INTO postings
    VALUES(?, ?, ?)] on [(term, article.id(), dict[term])]. *)
Fixpoint insert_loop (dict : Dict.t nat) (article_id : pystr)
  (terms : list pystr) (db : postings) : effect :=
  match terms with
  | [] => (db, Ok ())
  | t :: terms' =>
      match Dict.getitem dict t with
      | Ok v => insert_loop dict article_id terms' (db ++ [Posting t article_id v])
      | Raise e => (db, Raise e)
      end
  end.

Section Generate.
(** [natto.MeCab().parse(text, as_nodes=True)], the external
    tokenizer. *)
Variable parse : pystr → list MeCabNode.

(** [for article in articles] *)
Fixpoint generate_loop (articles : list WikipediaArticle.t) (db : postings)
  : effect :=
  match articles with
  | [] => (db, Ok ())
  | article :: articles' =>
      match count_loop (parse (WikipediaArticle.text article)) Dict.empty with
      | Raise e => (db, Raise e)
      | Ok dict =>
          match insert_loop dict (WikipediaArticle.id article)
                  (Dict.keys dict) db with
          | (db', Ok _) => generate_loop articles' db'
          | (db', Raise e) => (db', Raise e)
          end
      end
  end.

(** [generate] on the documents [get_all_documents()] yields.  Creating
    the table and the index when they do not exist, and the final
    commit, leave the rows as they are. *)
Definition generate (collection : list WikipediaArticle.t) (db : postings)
  : effect :=
  generate_loop collection db.

(** Whether a node is a filtered token occurrence of the term [t]: a
    normal node that passes the filter and whose indexed term is [t]. *)
Definition occurrence_of (t : pystr) (node : MeCabNode) : bool :=
  is_nor node &&
  let features := split_comma (feature node) in
  match FilterWords.shouldBeIncluded features, indexed_term node features with
  | Ok true, Ok t' => bool_decide (t' = t)
  | _, _ => false
  end.

(** The number of filtered token occurrences of [t] in the text of an
    article. *)
Definition occurrences (article : WikipediaArticle.t) (t : pystr) : nat :=
  length (filter (λ node, occurrence_of t node = true)
            (parse (WikipediaArticle.text article))).
End Generate.

(** ** AnalyseQuery.divide_ngrams *)

(** [string.punctuation] followed by the nine characters 「」、。・『』《》:
    the characters that [table_for_remove] deletes. *)
Definition table_for_remove : list codepoint :=
  [ 33; 34; 35; 36; 37; 38; 39; 40; 41; 42; 43; 44; 45; 46; 47; 58; 59; 60;
    61; 62; 63; 64; 91; 92; 93; 94; 95; 96; 123; 124; 125; 126;
    12300; 12301; 12289; 12290; 12539; 12302; 12303; 12298; 12299 ]%N.

Definition in_range (lo hi c : codepoint) : bool :=
  ((lo <=? c) && (c <=? hi))%N.

(** The characters that the class of the first substitution (a-z, A-Z,
    0-9 and five symbols) matches under [re.IGNORECASE]: the letters, the digits, the yen sign, the double
    quote, the full stop, the comma and the at sign, and the four
    characters that only differ in case from an ASCII letter (U+0130,
    U+0131, U+017F, U+212A). *)
Definition alnum_class (c : codepoint) : bool :=
  in_range 97%N 122%N c || in_range 65%N 90%N c || in_range 48%N 57%N c ||
  bool_decide (c ∈ [165; 34; 46; 44; 64; 304; 305; 383; 8490]%N).

(** The class of the second substitution: ASCII punctuation without the
    apostrophe, and the left double quotation mark U+201C. *)
Definition symbol_class (c : codepoint) : bool :=
  bool_decide (c ∈ [ 33; 34; 8220; 35; 36; 37; 38; 40; 41; 42; 43; 45; 46;
                     44; 47; 58; 59; 60; 61; 62; 63; 64; 91; 92; 93; 94; 95;
                     96; 123; 124; 125; 126 ]%N).

(** The class [[\n|\r|\t|年|月|日]]: newline, carriage return, tab, the
    vertical bar, and the date markers 年, 月, 日. *)
Definition date_class (c : codepoint) : bool :=
  bool_decide (c ∈ [10; 124; 13; 9; 24180; 26376; 26085]%N).

(** [re.sub(class, '', s)] for a pattern that is one character class,
    repeated or not: every matching character is deleted. *)
Definition re_sub_class (class : codepoint → bool) (s : pystr) : pystr :=
  filter (λ c, class c = false) s.

(** [s[i:j]] for [0 <= i], clipped to the string. *)
Definition slice (s : pystr) (i j : nat) : pystr := take (j - i) (drop i s).

Section DivideNgrams.
(** [str.isspace] on one character and [unicodedata.normalize] to NFKC
    rest on the Unicode tables of the interpreter. *)
Variable isspace : codepoint → bool.
Variable normalize_NFKC : pystr → pystr.

Fixpoint lstrip (s : pystr) : pystr :=
  match s with
  | [] => []
  | c :: s' => if isspace c then lstrip s' else s
  end.

(** [s.strip()] *)
Definition strip (s : pystr) : pystr :=
  reverse (lstrip (reverse (lstrip s))).

(** [s.replace(' ', '')] *)
Definition remove_spaces (s : pystr) : pystr :=
  filter (λ c, c ≠ 32%N) s.

(** [s.translate(table_for_remove)] *)
Definition translate (s : pystr) : pystr :=
  filter (λ c, c ∉ table_for_remove) s.

(** The value of [ngrams] before the windows are cut. *)
Definition normalized (query : pystr) : pystr :=
  let ngrams := normalize_NFKC (remove_spaces (strip query)) in
  let ngrams := translate ngrams in
  let ngrams := re_sub_class alnum_class ngrams in
  let ngrams := re_sub_class symbol_class ngrams in
  let ngrams := re_sub_class date_class ngrams in
  ngrams.

Definition divide_ngrams (query : pystr) : list pystr :=
  let n := 2 in
  let ngrams := normalized query in
  map (λ i, slice ngrams i (i + n)) (seq 0 (length ngrams)).
End DivideNgrams.

(** ** Index.mergeTable *)

(** The scores of a rank table are whatever the ranking put there (Python
    floats, numpy floats); [mergeTable] only uses their [+] and [* 0.5],
    which are the parameters [add] and [half] here. *)
Section MergeTable.
Context {V : Type} (add : V → V → V) (half : V → V).

Fixpoint mergeTable_loop (table1 table2 : Dict.t V) (titles : list pystr)
  (returnTable : Dict.t V) : result (Dict.t V) :=
  match titles with
  | [] => Ok returnTable
  | title :: titles' =>
      returnTable' ←
        (if Dict.mem table2 title then
           a ← Dict.getitem table1 title;
           b ← Dict.getitem table2 title;
           Ok (Dict.setitem returnTable title (add a (half b)))
         else
           a ← Dict.getitem table1 title;
           Ok (Dict.setitem returnTable title a));
      mergeTable_loop table1 table2 titles' returnTable'
  end.

Definition mergeTable (table1 table2 : Dict.t V) : result (Dict.t V) :=
  mergeTable_loop table1 table2 (Dict.keys table1) Dict.empty.
End MergeTable.

Open Scope R_scope.

(** [mergeTable] on tables of real scores. *)
Definition mergeTable_R : Dict.t R → Dict.t R → result (Dict.t R) :=
  mergeTable Rplus (λ b, b * 0.5).

(** ** Index.sortSearch and Index.sortSearchReturnTable *)

(** [math.log(x)]: a [ValueError] (math domain error) unless [0 < x]. *)
Definition math_log (x : R) : result R :=
  if Rlt_dec 0 x then Ok (ln x) else Raise ValueError.

(** [1 + math.log(len(cands)) * math.log(num_documents / len(cands))],
    with [num_documents] the count reported by the collection and [df]
    the number of candidate rows. *)
Definition termPoint (num_documents df : nat) : result R :=
  a ← math_log (INR df);
  b ← math_log (INR num_documents / INR df);
  Ok (1 + a * b).

(** [l[n] = x] on a list: an [IndexError] out of range. *)
Definition list_setitem (l : list R) (n : nat) (x : R) : result (list R) :=
  if decide (n < length l)%nat then Ok (<[n := x]> l) else Raise IndexError.

(** [documentVectors[cand[0]][n] = termPoint] *)
Definition set_component (documentVectors : Dict.t (list R)) (title : pystr)
  (n : nat) (x : R) : result (Dict.t (list R)) :=
  v ← Dict.getitem documentVectors title;
  v' ← list_setitem v n x;
  Ok (Dict.setitem documentVectors title v').

(** [for cand in cands] *)
Fixpoint cands_loop (cands : list pystr) (nterms n : nat) (x : R)
  (documentVectors : Dict.t (list R)) : result (Dict.t (list R)) :=
  match cands with
  | [] => Ok documentVectors
  | cand :: cands' =>
      documentVectors' ←
        (if Dict.mem documentVectors cand then
           set_component documentVectors cand n x
         else
           set_component
             (Dict.setitem documentVectors cand (replicate nterms 0))
             cand n x);
      cands_loop cands' nterms n x documentVectors'
  end.

(** [for n, term in enumerate(terms)], the first loop of both ranking
    functions (the two copies in the source are the same text), on the
    state [(documentVectors, defaultVector)]; [nterms] is [len(terms)] of
    the whole query and [n] the position of the head of [terms]. *)
Fixpoint vectors_loop (db : postings) (num_documents nterms : nat)
  (terms : list pystr) (n : nat) (st : Dict.t (list R) * list R)
  : result (Dict.t (list R) * list R) :=
  match terms with
  | [] => Ok st
  | t :: terms' =>
      let '(documentVectors, defaultVector) := st in
      let cands := select_document_id db t in
      if is_None cands || (length cands =? 0)%nat then
        vectors_loop db num_documents nterms terms' (S n)
          (documentVectors, defaultVector ++ [0])
      else
        x ← termPoint num_documents (length cands);
        documentVectors' ← cands_loop cands nterms n x documentVectors;
        vectors_loop db num_documents nterms terms' (S n)
          (documentVectors', defaultVector ++ [x])
  end.

Definition vectors (db : postings) (num_documents : nat) (terms : list pystr)
  : result (Dict.t (list R) * list R) :=
  vectors_loop db num_documents (length terms) terms 0 (Dict.empty, []).

(** A numpy float: a real number, or one of the values that only a zero
    denominator produces. *)
Inductive np_float :=
  | Finite (x : R)
  | Inf (positive : bool)
  | NaN.

(** [numpy.dot] of two lists: a [ValueError] when the shapes differ. *)
Definition np_dot (u v : list R) : result R :=
  if decide (length u = length v)
  then Ok (foldr Rplus 0 (zip_with Rmult u v))
  else Raise ValueError.

(** [numpy.linalg.norm] *)
Definition np_norm (u : list R) : R :=
  sqrt (foldr Rplus 0 (map (λ x, x * x) u)).

(** Division of numpy floats by a non-negative denominator: it warns and
    yields nan or inf on zero, it does not raise. *)
Definition np_div (a b : R) : np_float :=
  if Req_dec_T b 0 then
    if Req_dec_T a 0 then NaN
    else Inf (if Rlt_dec 0 a then true else false)
  else Finite (a / b).

(** [a < b]; every comparison with nan is false. *)
Definition np_lt (a b : np_float) : bool :=
  match a, b with
  | Finite x, Finite y => if Rlt_dec x y then true else false
  | Finite _, Inf q => q
  | Inf p, Finite _ => negb p
  | Inf p, Inf q => negb p && q
  | NaN, _ | _, NaN => false
  end.

(** [numpy.dot(documentVector, defaultVector) /
     (numpy.linalg.norm(documentVector) * numpy.linalg.norm(defaultVector))] *)
Definition cosine (documentVector defaultVector : list R) : result np_float :=
  d ← np_dot documentVector defaultVector;
  Ok (np_div d (np_norm documentVector * np_norm defaultVector)).

(** [for title, documentVector in documentVectors.items()] of
    [sortSearch], on the state [(max_cos, best_title)]. *)
Fixpoint best_loop (items : list (pystr * list R)) (defaultVector : list R)
  (st : np_float * pystr) : result (np_float * pystr) :=
  match items with
  | [] => Ok st
  | (title, documentVector) :: items' =>
      let '(max_cos, best_title) := st in
      cos ← cosine documentVector defaultVector;
      best_loop items' defaultVector
        (if np_lt max_cos cos then (cos, title) else (max_cos, best_title))
  end.

Definition sortSearch (db : postings) (num_documents : nat)
  (terms : list pystr) : result pystr :=
  '(documentVectors, defaultVector) ← vectors db num_documents terms;
  '(_, best_title) ←
    best_loop (Dict.items documentVectors) defaultVector (Finite (-1), []);
  Ok best_title.

(** The second loop of [sortSearchReturnTable], filling [table]. *)
Fixpoint table_loop (items : list (pystr * list R)) (defaultVector : list R)
  (table : Dict.t np_float) : result (Dict.t np_float) :=
  match items with
  | [] => Ok table
  | (title, documentVector) :: items' =>
      cos ← cosine documentVector defaultVector;
      table_loop items' defaultVector (Dict.setitem table title cos)
  end.

Definition sortSearchReturnTable (db : postings) (num_documents : nat)
  (terms : list pystr) : result (Dict.t np_float) :=
  '(documentVectors, defaultVector) ← vectors db num_documents terms;
  table_loop (Dict.items documentVectors) defaultVector Dict.empty.

Close Scope R_scope.

(** ** AnalyseQuery.extractWords *)

(** [for node in parser.parse(query, as_nodes=True)], on the list [terms];
    the filter [func] is called before the term is read. *)
Fixpoint extractWords_loop (func : list pystr → result bool)
  (nodes : list MeCabNode) (terms : list pystr) : result (list pystr) :=
  match nodes with
  | [] => Ok terms
  | node :: nodes' =>
      if is_nor node then
        let features := split_comma (feature node) in
        func features ≫= λ included : bool,
        if included then
          t ← indexed_term node features;
          extractWords_loop func nodes' (terms ++ [t])
        else extractWords_loop func nodes' terms
      else extractWords_loop func nodes' terms
  end.

Definition extractWords (parse : pystr → list MeCabNode) (query : pystr)
  (func : list pystr → result bool) : result (list pystr) :=
  extractWords_loop func (parse query) [].

(** ** Index.returnBestFromTable *)

(** [for title in table.keys()], on the state [(max_title, max_val)]. *)
Fixpoint returnBestFromTable_loop (table : Dict.t np_float)
  (titles : list pystr) (st : pystr * np_float) : result (pystr * np_float) :=
  match titles with
  | [] => Ok st
  | title :: titles' =>
      let '(max_title, max_val) := st in
      v ← Dict.getitem table title;
      if np_lt max_val v then
        v' ← Dict.getitem table title;
        returnBestFromTable_loop table titles' (title, v')
      else returnBestFromTable_loop table titles' (max_title, max_val)
  end.

Definition returnBestFromTable (table : Dict.t np_float) : result pystr :=
  '(max_title, _) ←
    returnBestFromTable_loop table (Dict.keys table) ([], Finite (-1));
  Ok max_title.

(** ** Index.generateFromOpeningText and Index.generate_ngrams *)

Section LimitedBuilds.
Variable parse : pystr → list MeCabNode.

(** [for article in articles] with the counter [count]: the loop is left
    at the article that makes the counter exceed 100. *)
Fixpoint generateFromOpeningText_loop (articles : list WikipediaArticle.t)
  (count : nat) (db : postings) : effect :=
  match articles with
  | [] => (db, Ok ())
  | article :: articles' =>
      let count := count + 1 in
      if decide (100 < count) then (db, Ok ())
      else
        match count_loop (parse (WikipediaArticle.opening_text article))
                Dict.empty with
        | Raise e => (db, Raise e)
        | Ok dict =>
            match insert_loop dict (WikipediaArticle.id article)
                    (Dict.keys dict) db with
            | (db', Ok _) => generateFromOpeningText_loop articles' count db'
            | (db', Raise e) => (db', Raise e)
            end
        end
  end.

Definition generateFromOpeningText (collection : list WikipediaArticle.t)
  (db : postings) : effect :=
  generateFromOpeningText_loop collection 0 db.
End LimitedBuilds.

(** A row of the table [ngrams]. *)
Record ngram_posting := NgramPosting {
  ngram_term : pystr;
  ngram_document_id : pystr
}.

Section GenerateNgrams.
Variable isspace : codepoint → bool.
Variable normalize_NFKC : pystr → pystr.

(** [for article in articles] of [generate_ngrams]; [executemany] inserts
    the pairs [(ngram, article.id())] in the order of the list. *)
Fixpoint generate_ngrams_loop (articles : list WikipediaArticle.t)
  (count : nat) (table : list ngram_posting) : list ngram_posting :=
  match articles with
  | [] => table
  | article :: articles' =>
      let count := count + 1 in
      if decide (100 < count) then table
      else
        let ngrams :=
          divide_ngrams isspace normalize_NFKC (WikipediaArticle.text article) in
        let ngrams_titles :=
          map (λ ngram, NgramPosting ngram (WikipediaArticle.id article)) ngrams in
        generate_ngrams_loop articles' count (table ++ ngrams_titles)
  end.

Definition generate_ngrams (collection : list WikipediaArticle.t)
  (table : list ngram_posting) : list ngram_posting :=
  generate_ngrams_loop collection 0 table.
End GenerateNgrams.

(** ** WikipediaCollection *)

Module WikipediaCollection.

(** A row of the table [articles], in the order of the columns that the
    three [SELECT] statements read. *)
Record row := Row {
  row_title : pystr;
  row_text : pystr;
  row_opening_text : pystr;
  row_auxiliary_text : pystr;
  row_categories : pystr;
  row_headings : pystr;
  row_wiki_text : pystr;
  row_popularity_score : R;
  row_num_incoming_links : Z
}.

(** The collection: the table behind the connection [db] and the
    attribute [_cached_num_documents] ([None] until the first count). *)
Record t := Make {
  articles : list row;
  _cached_num_documents : option nat
}.

(** [WikipediaCollection(filename)] on a file holding the table. *)
Definition init (table : list row) : t := Make table None.

Definition BLOCK_SIZE : nat := 1000.

(** [num_documents]: the value returned and the collection afterwards. *)
Definition num_documents (self : t) : nat * t :=
  match _cached_num_documents self with
  | None =>
      let num_documents := length (articles self) in
      (num_documents, Make (articles self) (Some num_documents))
  | Some n => (n, self)
  end.

Section Json.
(** [json.loads] on a column: the decoded value, or the [ValueError] it
    raises on a text that is not JSON. *)
Variable json : Type.
Variable json_loads : pystr → result json.

(** The constructor call [WikipediaArticle(self, title, row...)]: the three
    JSON columns are decoded, in the order of the arguments, before the
    article exists; of the fields only those that the index reads are
    kept. *)
Definition make_article (title : pystr) (r : row)
  : result WikipediaArticle.t :=
  _ ← json_loads (row_auxiliary_text r);
  _ ← json_loads (row_categories r);
  _ ← json_loads (row_headings r);
  Ok (WikipediaArticle.Make title (row_text r) (row_opening_text r)).

(** [fetchone()] after [SELECT ... FROM articles WHERE title=?] *)
Definition fetchone_by_title (self : t) (title : pystr) : option row :=
  head (filter (λ r, row_title r = title) (articles self)).

Definition find_article_by_title (self : t) (query : pystr)
  : result (option WikipediaArticle.t) :=
  match fetchone_by_title self query with
  | None => Ok None
  | Some r => a ← make_article (row_title r) r; Ok (Some a)
  end.

Definition get_document_by_id (self : t) (doc_id : pystr)
  : result (option WikipediaArticle.t) :=
  match fetchone_by_title self doc_id with
  | None => Ok None
  | Some r => a ← make_article doc_id r; Ok (Some a)
  end.

(** What a generator gives its consumer: the articles yielded, and how
    the iteration ends after them. *)
Definition yielded : Type := list WikipediaArticle.t * result unit.

(** [for row in block: yield WikipediaArticle(...)] *)
Fixpoint yield_rows (block : list row) : yielded :=
  match block with
  | [] => ([], Ok ())
  | r :: block' =>
      match make_article (row_title r) r with
      | Raise e => ([], Raise e)
      | Ok a => let '(rest, stop) := yield_rows block' in (a :: rest, stop)
      end
  end.

(** [while True: block = c.fetchmany(BLOCK_SIZE) ...], on the rows the
    cursor has not fetched yet. *)
Equations? get_all_documents_from (cursor : list row) : yielded
  by wf (length cursor) lt :=
get_all_documents_from cursor
  with decide (length (take BLOCK_SIZE cursor) = 0) := {
  | left _ => ([], Ok ());
  | right Hblock =>
      match yield_rows (take BLOCK_SIZE cursor) with
      | (arts, Raise e) => (arts, Raise e)
      | (arts, Ok _) =>
          let '(rest, stop) :=
            get_all_documents_from (drop BLOCK_SIZE cursor) in
          (arts ++ rest, stop)
      end
  }.
Proof.
  rewrite length_drop. rewrite length_take in Hblock.
  unfold BLOCK_SIZE in *. lia.
Qed.

Definition get_all_documents (self : t) : yielded :=
  get_all_documents_from (articles self).
End Json.

End WikipediaCollection.

(** ** kadai4.py: the word game *)

Module Kadai4.

(** The answer 'はい'. *)
Definition yes : pystr :=
  [ 12399; 12356 ]%N.

(** The text announcing a new game. *)
Definition new_game_text : pystr :=
  [ 26032; 12375; 12356; 12466; 12540; 12512; 12434; 22987; 12417; 12427;
    12424; 12290; 21336; 35486; 12434; 35328; 12387; 12390; 12367; 12384;
    12373; 12356 ]%N.

(** The text asking again whether to play once more. *)
Definition not_heard_text : pystr :=
  [ 32862; 12371; 12360; 12394; 12356; 12424; 65311; 12418; 12358; 19968;
    24230; 36938; 12403; 12414; 12377; 12363; 65311 ]%N.

(** The text of the lost game. *)
Definition lost_text : pystr :=
  [ 60; 115; 112; 101; 97; 107; 62; 60; 97; 117; 100; 105; 111; 32; 115;
    114; 99; 61; 34; 104; 116; 116; 112; 115; 58; 47; 47; 97; 99; 116; 105;
    111; 110; 112; 114; 111; 120; 121; 45; 101; 56; 51; 102; 56; 46; 102;
    105; 114; 101; 98; 97; 115; 101; 97; 112; 112; 46; 99; 111; 109; 47;
    114; 97; 110; 107; 105; 110; 103; 46; 109; 112; 51; 34; 62; 12489;
    12521; 12512; 12525; 12540; 12523; 60; 47; 97; 117; 100; 105; 111; 62;
    60; 97; 117; 100; 105; 111; 32; 115; 114; 99; 61; 34; 104; 116; 116;
    112; 115; 58; 47; 47; 97; 99; 116; 105; 111; 110; 112; 114; 111; 120;
    121; 45; 101; 56; 51; 102; 56; 46; 102; 105; 114; 101; 98; 97; 115;
    101; 97; 112; 112; 46; 99; 111; 109; 47; 112; 111; 112; 95; 101; 120;
    112; 108; 111; 115; 105; 111; 110; 46; 109; 112; 51; 34; 62; 12393;
    12387; 12363; 12540; 12435; 60; 47; 97; 117; 100; 105; 111; 62; 35352;
    20107; 12364; 35211; 12388; 12363; 12426; 12414; 12379; 12435; 12391;
    12375; 12383; 12290; 12354; 12394; 12383; 12398; 12414; 12369; 12540;
    65281; 12418; 12358; 19968; 24230; 36938; 12403; 12414; 12377; 12363;
    60; 47; 115; 112; 101; 97; 107; 62 ]%N.

(** The text of a found-message up to the number of articles. *)
Definition found_prefix : pystr :=
  [ 60; 115; 112; 101; 97; 107; 62; 60; 97; 117; 100; 105; 111; 32; 115;
    114; 99; 61; 34; 104; 116; 116; 112; 115; 58; 47; 47; 97; 99; 116; 105;
    111; 110; 112; 114; 111; 120; 121; 45; 101; 56; 51; 102; 56; 46; 102;
    105; 114; 101; 98; 97; 115; 101; 97; 112; 112; 46; 99; 111; 109; 47;
    114; 97; 110; 107; 105; 110; 103; 46; 109; 112; 51; 34; 62; 12489;
    12521; 12512; 12525; 12540; 12523; 60; 47; 97; 117; 100; 105; 111; 62;
    35352; 20107; 12364 ]%N.

(** The text between the number of articles and the words. *)
Definition found_middle : pystr :=
  [ 20214; 35211; 12388; 12363; 12426; 12414; 12375; 12383; 12290; 20170;
    12414; 12391; 35328; 12431; 12428; 12383; 21336; 35486; 12399 ]%N.

(** The end of the message for this range of the number of articles. *)
Definition almost_exploding_suffix : pystr :=
  [ 12391; 12377; 12290; 12418; 12358; 29190; 30330; 23544; 21069; 12391;
    12377; 12397; 12290; 27671; 12434; 12388; 12369; 12390; 65281; 60; 47;
    115; 112; 101; 97; 107; 62 ]%N.

(** The end of the message for this range of the number of articles. *)
Definition about_to_explode_suffix : pystr :=
  [ 12391; 12377; 12290; 12381; 12429; 12381; 12429; 29190; 30330; 12375;
    12381; 12358; 12391; 12377; 12397; 12290; 12393; 12365; 12393; 12365;
    12375; 12414; 12377; 12290; 60; 47; 115; 112; 101; 97; 107; 62 ]%N.

(** The end of the message for this range of the number of articles. *)
Definition push_harder_suffix : pystr :=
  [ 12391; 12377; 12290; 12418; 12358; 12385; 12423; 12387; 12392; 25915;
    12417; 12390; 12367; 12384; 12373; 12356; 12290; 60; 47; 115; 112; 101;
    97; 107; 62 ]%N.

(** The end of the message for this range of the number of articles. *)
Definition can_do_more_suffix : pystr :=
  [ 12391; 12377; 12290; 12418; 12387; 12392; 12356; 12369; 12414; 12377;
    12424; 12290; 60; 47; 115; 112; 101; 97; 107; 62 ]%N.

(** The end of the message for this range of the number of articles. *)
Definition far_from_it_suffix : pystr :=
  [ 12391; 12377; 12290; 12414; 12384; 12414; 12384; 12391; 12377; 12397;
    12290; 60; 47; 115; 112; 101; 97; 107; 62 ]%N.

(** The separator 'と' of the words. *)
Definition word_separator : pystr :=
  [ 12392 ]%N.

(** The globals [gameEnd] and [wordsState]. *)
Record game := Game {
  gameEnd : bool;
  wordsState : list pystr
}.

(** The state when the module is loaded. *)
Definition initial : game := Game false [].

(** [len(titles)] on the list or the set that [search] returns. *)
Definition len_titles (titles : titles_val) : nat :=
  match titles with
  | TitlesList l => length l
  | TitlesSet s => size s
  end.

(** [sep.join(words)] *)
Fixpoint join (sep : pystr) (words : list pystr) : pystr :=
  match words with
  | [] => []
  | w :: words' =>
      match words' with
      | [] => w
      | _ :: _ => w ++ sep ++ join sep words'
      end
  end.

(** A found-message, formatted with the number of articles and the
    words joined by the separator. *)
Definition found_text (suffix : pystr) (n : nat) (words : list pystr)
  : pystr :=
  found_prefix ++ py (pretty n) ++ found_middle
  ++ join word_separator words ++ suffix.

Section Action.
Variable parse : pystr → list MeCabNode.
Variable db : postings.
(** [json.dumps] of the dictionary whose one key, [textToSpeech], has
    the given text, with the formatting arguments of the source. *)
Variable json_dumps : pystr → pystr.

(** [action] on the query parameter [q]: the globals afterwards, and the
    response or the exception. *)
Definition action (g : game) (query : pystr) : game * result pystr :=
  if gameEnd g then
    if decide (query = yes) then
      (Game false (wordsState g), Ok (json_dumps new_game_text))
    else (g, Ok (json_dumps not_heard_text))
  else
    match extractWords parse query FilterWords.shouldBeIncluded with
    | Raise e => (g, Raise e)
    | Ok terms =>
        let wordsState := wordsState g ++ terms in
        match search db wordsState with
        | Raise e => (Game false wordsState, Raise e)
        | Ok titles =>
            let n := len_titles titles in
            if decide (n = 0) then (Game true [], Ok (json_dumps lost_text))
            else if decide (n < 5) then
              (Game false wordsState,
               Ok (json_dumps (found_text almost_exploding_suffix n wordsState)))
            else if decide (n < 10) then
              (Game false wordsState,
               Ok (json_dumps (found_text about_to_explode_suffix n wordsState)))
            else if decide (n < 100) then
              (Game false wordsState,
               Ok (json_dumps (found_text push_harder_suffix n wordsState)))
            else if decide (n < 500) then
              (Game false wordsState,
               Ok (json_dumps (found_text can_do_more_suffix n wordsState)))
            else
              (Game false wordsState,
               Ok (json_dumps (found_text far_from_it_suffix n wordsState)))
        end
    end.

(** The globals after a sequence of requests. *)
Definition play (g : game) (queries : list pystr) : game :=
  foldl (λ g query, (action g query).1) g queries.
End Action.

End Kadai4.

(** * Specification-side definitions *)

(** ** Sample data *)

(** A database with one posting, and one with the postings of the
    specification's first scenario. *)
Definition db_one : postings := [Posting (py "a") (py "D1") 1].

Definition db_scenario : postings :=
  [ Posting (py "cat") (py "D1") 3; Posting (py "cat") (py "D2") 1;
    Posting (py "dog") (py "D2") 1; Posting (py "dog") (py "D3") 2 ].

(** A toy tokenizer: every character of the text is a normal node with
    the features '名詞,一般' and the character as its surface. *)
Definition char_nodes (text : pystr) : list MeCabNode :=
  map (λ c, {| is_nor := true;
               feature := FilterWords.noun ++ [44%N] ++ FilterWords.general;
               surface := [c] |}) text.

Definition two_articles : list WikipediaArticle.t :=
  [ WikipediaArticle.Make (py "D1") (py "aab") (py "a");
    WikipediaArticle.Make (py "D2") (py "b") (py "b") ].

(** ** Rank fusion *)

(** The score [mergeTable] gives to a document, from the two lookups. *)
Definition merged {V : Type} (add : V → V → V) (half : V → V)
  (table1 table2 : Dict.t V) (k : pystr) : option V :=
  match Dict.get table1 k with
  | None => None
  | Some a =>
      Some (match Dict.get table2 k with
            | Some b => add a (half b)
            | None => a
            end)
  end.

(** ** Ranking *)

Open Scope R_scope.

(** The weight of a query term: [0] when it has no posting row, else
    [1 + ln df * ln (N / df)]. *)
Definition weight (db : postings) (num_documents : nat) (t : pystr) : R :=
  let df := length (select_document_id db t) in
  if decide (df = 0%nat) then 0
  else 1 + ln (INR df) * ln (INR num_documents / INR df).

(** Every document vector has one component per query term. *)
Definition vectors_sized (nterms : nat) (dvs : Dict.t (list R)) : Prop :=
  ∀ k v, Dict.get dvs k = Some v → length v = nterms.

Close Scope R_scope.

(** ** Index construction *)

(** The count a dictionary holds for a term, 0 for an absent one. *)
Definition count_of (d : Dict.t nat) (t : pystr) : nat :=
  default 0 (Dict.get d t).

(** The filtered occurrences of [t] among some nodes. *)
Definition occurrences_in (nodes : list MeCabNode) (t : pystr) : nat :=
  length (filter (λ node, occurrence_of t node = true) nodes).

(** The dictionaries of [count_loop]: distinct keys, positive counts. *)
Definition counted (d : Dict.t nat) : Prop :=
  NoDup (Dict.keys d) ∧ ∀ k, k ∈ Dict.keys d → 1 ≤ count_of d k.

(** The rows [generate] inserts for one article. *)
Definition article_rows (a : WikipediaArticle.t) (dict : Dict.t nat)
  : postings :=
  map (λ t, Posting t (WikipediaArticle.id a) (count_of dict t))
    (Dict.keys dict).

(** The indexed term of a token, in the words of the specification: the
    lemma, which is the seventh of the comma-separated features, when
    the tokenizer gives the token exactly nine features, and the surface
    form otherwise. *)
Definition lemma_or_surface (node : MeCabNode) : pystr :=
  match split_comma (feature node) with
  | [_; _; _; _; _; _; lemma; _; _] => lemma
  | _ => surface node
  end.

(** The token filter of the specification, on the category and the
    subcategory of a token, its first two features: nouns of five
    subcategories, and independent adjectives and verbs. *)
Definition index_worthy (node : MeCabNode) : bool :=
  match split_comma (feature node) with
  | category :: subcategory :: _ =>
      bool_decide (category = FilterWords.noun) &&
      bool_decide (subcategory ∈ [ FilterWords.verbal_noun;
                                   FilterWords.general;
                                   FilterWords.adjectival_noun_stem;
                                   FilterWords.proper_noun;
                                   FilterWords.numeral ])
      || bool_decide (category = FilterWords.adjective) &&
         bool_decide (subcategory = FilterWords.independent)
      || bool_decide (category = FilterWords.verb) &&
         bool_decide (subcategory = FilterWords.independent)
  | _ => false
  end.

(** Whether a token is a filtered occurrence of the term [t]: a normal
    token that passes the token filter and whose indexed term is [t]. *)
Definition filtered_occurrence (t : pystr) (node : MeCabNode) : bool :=
  is_nor node && index_worthy node && bool_decide (lemma_or_surface node = t).

(** The number of filtered occurrences of the term [t] among the tokens
    of a text. *)
Definition filtered_occurrences (nodes : list MeCabNode) (t : pystr) : nat :=
  length (filter (λ node, filtered_occurrence t node = true) nodes).

(** A toy tokenizer with lemmas: the character A is an independent verb
    with nine features and the lemma a, a full stop is a particle, and
    every other character is a general noun with two features; the
    surface is the character. *)
Definition tagged_nodes (text : pystr) : list MeCabNode :=
  map (λ c,
    {| is_nor := true;
       feature :=
         if decide (c = 65%N) then
           FilterWords.verb ++ [44%N] ++ FilterWords.independent
             ++ py ",*,*,*,*,a,*,*"
         else if decide (c = 46%N) then
           FilterWords.particle ++ [44%N] ++ py "*"
         else FilterWords.noun ++ [44%N] ++ FilterWords.general;
       surface := [c] |}) text.

Definition tagged_articles : list WikipediaArticle.t :=
  [ WikipediaArticle.Make (py "D1") (py "Aab.") (py "A");
    WikipediaArticle.Make (py "D2") (py "b") (py "b") ].

(** ** Normalization *)

(** [deleting P s r]: the text [r] is the text [s] with every character
    that satisfies [P] deleted, and the other characters kept, in their
    order. *)
Inductive deleting (P : codepoint → bool) : pystr → pystr → Prop :=
  | deleting_nil : deleting P [] []
  | deleting_drop c s r :
      P c = true → deleting P s r → deleting P (c :: s) r
  | deleting_keep c s r :
      P c = false → deleting P s r → deleting P (c :: s) (c :: r).











(** A sample text, [ Tokyo 2020年、猫と犬! ] between two spaces, and a
    whitespace test for it. *)
Definition sample_text : pystr :=
  py " Tokyo 2020" ++ [24180; 12289; 29483; 12392; 29356]%N ++ py "! ".

Definition sample_isspace (c : codepoint) : bool :=
  bool_decide (c ∈ [9; 10; 11; 12; 13; 32; 12288]%N).

(** ** Query extraction *)

(** How often a term occurs in a list of terms. *)
Definition term_count (t : pystr) (ws : list pystr) : nat :=
  length (filter (λ w, w = t) ws).

(** ** Rank tables *)

(** The score [mergeTable] writes for a document with primary score [a]. *)
Definition merged_score {V : Type} (add : V → V → V) (half : V → V)
  (table2 : Dict.t V) (k : pystr) (a : V) : V :=
  match Dict.get table2 k with
  | Some b => add a (half b)
  | None => a
  end.

(** One step of the scan for the best score, on [(max, best)]. *)
Definition best_step (st : np_float * pystr) (kv : pystr * np_float)
  : np_float * pystr :=
  if np_lt st.1 kv.2 then (kv.2, kv.1) else st.

(** The cosines of the document vectors, in their order. *)
Fixpoint scores (items : list (pystr * list R)) (defaultVector : list R)
  : result (list (pystr * np_float)) :=
  match items with
  | [] => Ok []
  | (title, documentVector) :: items' =>
      cos ← cosine documentVector defaultVector;
      rest ← scores items' defaultVector;
      Ok ((title, cos) :: rest)
  end.

(** ** Document vectors *)

(** The candidate rows of all query terms, in the order of the query. *)
Definition hits (db : postings) (terms : list pystr) : list pystr :=
  concat (map (select_document_id db) terms).

(** The query vector with the positions of the terms for which the
    document has no posting set to 0. *)
Definition masked (db : postings) (title : pystr) (terms : list pystr)
  (qv : list R) : list R :=
  zip_with (λ t w, if bool_decide (title ∈ select_document_id db t)
                   then w else 0%R) terms qv.

(** The weight of the term of [db_one] in a collection of one document,
    and the rank table of that query. *)
Definition weight_one : R := (1 + ln (INR 1) * ln (INR 1 / INR 1))%R.

Definition table_one : Dict.t np_float :=
  [(py "D1", np_div (weight_one * weight_one + 0)
               (np_norm [weight_one] * np_norm [weight_one]))].

(** ** Limited builds *)

(** An article whose body is its opening text. *)
Definition opening_view (a : WikipediaArticle.t) : WikipediaArticle.t :=
  WikipediaArticle.Make (WikipediaArticle.title a)
    (WikipediaArticle.opening_text a) (WikipediaArticle.opening_text a).

(** The rows of the table [ngrams] for one article. *)
Definition ngram_rows (isspace : codepoint → bool)
  (normalize_NFKC : pystr → pystr) (a : WikipediaArticle.t)
  : list ngram_posting :=
  map (λ ngram, NgramPosting ngram (WikipediaArticle.id a))
    (divide_ngrams isspace normalize_NFKC (WikipediaArticle.text a)).

(** ** The collection *)

(** The article of a row, when its JSON columns decode. *)
Definition article_of_row (r : WikipediaCollection.row) : WikipediaArticle.t :=
  WikipediaArticle.Make (WikipediaCollection.row_title r)
    (WikipediaCollection.row_text r) (WikipediaCollection.row_opening_text r).

(** Whether the three JSON columns of a row decode. *)
Definition decodes (json : Type) (json_loads : pystr → result json)
  (r : WikipediaCollection.row) : Prop :=
  (∃ x, json_loads (WikipediaCollection.row_auxiliary_text r) = Ok x) ∧
  (∃ x, json_loads (WikipediaCollection.row_categories r) = Ok x) ∧
  (∃ x, json_loads (WikipediaCollection.row_headings r) = Ok x).

(** A table of two articles, and a decoder that accepts every text. *)
Definition two_rows : list WikipediaCollection.row :=
  [ WikipediaCollection.Row (py "D1") (py "aab") (py "a") (py "[]") (py "[]")
      (py "[]") (py "aab") 1%R 0%Z;
    WikipediaCollection.Row (py "D2") (py "b") (py "b") (py "[]") (py "[]")
      (py "[]") (py "b") 1%R 0%Z ].

Definition accept_json (text : pystr) : result unit := Ok ().

(** ** The word game *)

(** What holds of the globals between two requests. *)
Definition game_ok (db : postings) (g : Kadai4.game) : Prop :=
  if Kadai4.gameEnd g then Kadai4.wordsState g = []
  else Kadai4.wordsState g = [] ∨
       ∃ titles, search db (Kadai4.wordsState g) = Ok titles ∧
                 0 < Kadai4.len_titles titles.

(** Postings of the term cat in the documents D1 and D2, and of the term
    d in the document D1. *)
Definition db_letters : postings :=
  [ Posting (py "cat") (py "D1") 1; Posting (py "cat") (py "D2") 1;
    Posting (py "d") (py "D1") 1 ].

(** * Properties *)

Section SearchFacts.
Variable db : postings.

Lemma elem_of_docs_of t d : d ∈ docs_of db t ↔ has_posting db t d.
Proof.
  unfold docs_of, set_of_cands, select_document_id, has_posting.
  rewrite elem_of_list_to_set, list_elem_of_fmap. split.
  - intros (p & -> & Hp). apply list_elem_of_filter in Hp as [Ht Hp]. eauto.
  - intros (p & Hp & Ht & Hd). exists p. split; [done|].
    apply list_elem_of_filter. done.
Qed.

Lemma search_loop_set ts s :
  search_loop db ts (TitlesSet s, false)
  = Ok (TitlesSet (foldl (λ acc u, acc ∩ docs_of db u) s ts), false).
Proof.
  revert s. induction ts as [|t ts IH]; intros s; [done|].
  cbn. apply IH.
Qed.

Lemma search_cons t ts :
  search db (t :: ts) = Ok (TitlesSet (docs_of_all db t ts)).
Proof.
  unfold search. cbn. rewrite search_loop_set. done.
Qed.

Lemma search_nil : search db [] = Ok (TitlesList []).
Proof. done. Qed.

Lemma elem_of_foldl_inter ts s d :
  d ∈ foldl (λ acc u, acc ∩ docs_of db u) s ts
  ↔ d ∈ s ∧ ∀ u, u ∈ ts → d ∈ docs_of db u.
Proof.
  revert s. induction ts as [|t ts IH]; intros s; cbn.
  - split; [intros ?; split; [done|]; intros u Hu; inversion Hu | tauto].
  - rewrite IH, elem_of_intersection. split.
    + intros [[Hs Ht] Hts]. split; [done|]. intros u Hu.
      apply elem_of_cons in Hu as [->|Hu]; auto.
    + intros [Hs Hall]. repeat split; [done| |].
      * apply Hall. left.
      * intros u Hu. apply Hall. by right.
Qed.

Lemma elem_of_docs_of_all t ts d :
  d ∈ docs_of_all db t ts ↔ ∀ u, u ∈ t :: ts → d ∈ docs_of db u.
Proof.
  unfold docs_of_all. rewrite elem_of_foldl_inter. split.
  - intros [Ht Hts] u Hu. apply elem_of_cons in Hu as [->|Hu]; auto.
  - intros Hall. split; [apply Hall; left|].
    intros u Hu. apply Hall. by right.
Qed.
End SearchFacts.

(** C1. For a non-empty sequence of terms [search] returns, without
    raising, the set of exactly the documents that have a posting for
    every term of the sequence, that is the intersection of the terms'
    document sets, so that a term without postings makes the result
    empty.  For the empty sequence it returns the empty list. *)
Theorem search_is_intersection (db : postings) (terms : list pystr) :
  ∃ v, search db terms = Ok v ∧
    match terms with
    | [] => v = TitlesList []
    | _ :: _ =>
        ∃ s, v = TitlesSet s ∧
          (∀ d, d ∈ s ↔ ∀ t, t ∈ terms → has_posting db t d) ∧
          (∀ t, t ∈ terms → (∀ d, ¬ has_posting db t d) → s = ∅)
    end.
Proof.
  destruct terms as [|t ts].
  - exists (TitlesList []). by rewrite search_nil.
  - exists (TitlesSet (docs_of_all db t ts)). rewrite search_cons.
    split; [done|]. exists (docs_of_all db t ts). split; [done|].
    assert (∀ d, d ∈ docs_of_all db t ts
                 ↔ ∀ u, u ∈ t :: ts → has_posting db u d) as Hmem.
    { intros d. rewrite elem_of_docs_of_all.
      split; intros Hall u Hu; apply elem_of_docs_of, Hall, Hu. }
    split; [exact Hmem|].
    intros u Hu Hnone. apply set_eq. intros d. rewrite Hmem.
    split; [|intros Hd; by apply not_elem_of_empty in Hd].
    intros Hall. exfalso. exact (Hnone d (Hall u Hu)).
Qed.

(** ** Monotonicity, reordering and duplication of query terms *)

Lemma search_total (db : postings) (terms : list pystr) :
  search db terms =
    Ok (match terms with
        | [] => TitlesList []
        | t :: ts => TitlesSet (docs_of_all db t ts)
        end).
Proof. destruct terms; [apply search_nil | apply search_cons]. Qed.

Lemma docs_of_all_ext (db : postings) t ts u us :
  (∀ x, x ∈ t :: ts ↔ x ∈ u :: us) →
  docs_of_all db t ts = docs_of_all db u us.
Proof.
  intros Hext. apply set_eq. intros d.
  rewrite !elem_of_docs_of_all. split; intros H x Hx; apply H, Hext, Hx.
Qed.

(** C8, as stated, fails: the term [a] has a posting, so dropping it is
    not covered by the zero-match exception, and yet [search] on the empty
    subsequence returns the empty list, which does not contain [D1]. *)
Lemma search_subsequence_counterexample :
  sublist [] [py "a"] ∧
  (∀ t, t ∈ [py "a"] → docs_of db_one t ≠ ∅) ∧
  search db_one [py "a"] = Ok (TitlesSet {[ py "D1" ]}) ∧
  search db_one [] = Ok (TitlesList []) ∧
  ¬ (titles_members (TitlesSet {[ py "D1" ]}) ⊆ titles_members (TitlesList [])).
Proof.
  split; [apply sublist_nil_l|]. split; [|split; [|split]].
  - intros t Ht. apply list_elem_of_singleton in Ht as ->.
    intros Hempty. assert (py "D1" ∈ docs_of db_one (py "a")) as Hin.
    { apply elem_of_docs_of. exists (Posting (py "a") (py "D1") 1).
      split; [apply list_elem_of_singleton|]; done. }
    rewrite Hempty in Hin. set_solver.
  - rewrite search_total. vm_compute. reflexivity.
  - done.
  - cbn. set_solver.
Qed.

(** C8, amended. For every non-empty subsequence [T'] of [T], both
    searches return and every document of [search T] is a document of
    [search T']. *)
Theorem search_subsequence (db : postings) (T T' : list pystr) :
  T' ≠ [] → sublist T' T →
  ∃ v v', search db T = Ok v ∧ search db T' = Ok v' ∧
          titles_members v ⊆ titles_members v'.
Proof.
  intros Hne Hsub. rewrite !search_total. eexists _, _.
  split; [done|]. split; [done|].
  destruct T' as [|t' ts']; [done|]. destruct T as [|t ts].
  { apply sublist_nil_r in Hsub. done. }
  cbn [titles_members]. intros d. rewrite !elem_of_docs_of_all.
  intros Hall u Hu. apply Hall. by eapply elem_of_sublist.
Qed.

Lemma search_subsequence_witness :
  [py "cat"] ≠ [] ∧ sublist [py "cat"] [py "cat"; py "dog"] ∧
  ∃ v v', search db_scenario [py "cat"; py "dog"] = Ok v ∧
          search db_scenario [py "cat"] = Ok v' ∧
          titles_members v ⊆ titles_members v'.
Proof.
  assert (sublist [py "cat"] [py "cat"; py "dog"]) as Hsub.
  { apply sublist_skip, sublist_nil_l. }
  assert ([py "cat"] ≠ []) as Hne by discriminate.
  split; [done|]. split; [done|].
  exact (search_subsequence db_scenario _ _ Hne Hsub).
Defined.

(** C9. [search] returns the same value for a term sequence, for any
    permutation of it, and for the sequence repeated twice. *)
Theorem search_permutation_duplication (db : postings) (T P : list pystr) :
  T ≡ₚ P →
  search db T = search db P ∧ search db T = search db (T ++ T).
Proof.
  intros Hperm. rewrite !search_total. split.
  - destruct T as [|t ts], P as [|p ps]; [done| | |].
    + apply Permutation_nil_l in Hperm. done.
    + apply Permutation_nil_r in Hperm. done.
    + do 2 f_equal. apply docs_of_all_ext. intros x.
      apply elem_of_Permutation_proper. done.
  - destruct T as [|t ts]; [done|]. cbn [app]. do 2 f_equal.
    apply docs_of_all_ext. intros x.
    rewrite !elem_of_cons, elem_of_app, elem_of_cons. tauto.
Qed.

Lemma search_permutation_duplication_witness :
  [py "cat"; py "dog"] ≡ₚ [py "dog"; py "cat"] ∧
  search db_scenario [py "cat"; py "dog"]
    = search db_scenario [py "dog"; py "cat"] ∧
  search db_scenario [py "cat"; py "dog"]
    = search db_scenario ([py "cat"; py "dog"] ++ [py "cat"; py "dog"]).
Proof.
  split; [apply perm_swap|].
  apply (search_permutation_duplication db_scenario _ _ (perm_swap _ _ _)).
Defined.

(** ** The n-gram fallback *)

Lemma docs_of_empty (db : postings) (t : pystr) :
  docs_of db t = ∅ ↔ length (select_document_id db t) = 0.
Proof.
  unfold docs_of, set_of_cands.
  destruct (select_document_id db t) as [|d l]; cbn; [done|].
  split; [|done]. intros Hempty.
  assert (d ∈ ({[ d ]} ∪ list_to_set l : gset pystr)) as Hin
    by (apply elem_of_union_l, elem_of_singleton; done).
  rewrite Hempty in Hin. by apply not_elem_of_empty in Hin.
Qed.

Lemma ngrams_search_loop_skip (db : postings) (pre rest : list pystr) st log :
  (∀ u, u ∈ pre → docs_of db u = ∅) →
  ngrams_search_loop db (pre ++ rest) st log
  = ngrams_search_loop db rest st (log ++ pre).
Proof.
  revert log. induction pre as [|u pre IH]; intros log Hpre; cbn.
  - by rewrite app_nil_r.
  - case_decide as Hlen.
    + rewrite IH, <- app_assoc; [done|].
      intros x Hx. apply Hpre. by right.
    + exfalso. apply Hlen, docs_of_empty, Hpre. left.
Qed.

(** C5. When [t] is the first bigram of the sequence with a posting,
    [ngrams_search] returns the document set of [t] alone, and the
    statements it executed are those of the bigrams up to and including
    [t]: none of the later bigrams is looked up. *)
Theorem ngrams_search_first_nonempty
  (db : postings) (pre post : list pystr) (t : pystr) :
  (∀ u, u ∈ pre → docs_of db u = ∅) →
  docs_of db t ≠ ∅ →
  ngrams_search db (pre ++ t :: post)
  = Traced (pre ++ [t]) (Ok (Some (docs_of db t))).
Proof.
  intros Hpre Ht. unfold ngrams_search.
  rewrite ngrams_search_loop_skip by done. cbn.
  case_decide as Hlen; [|done].
  exfalso. by apply Ht, docs_of_empty.
Qed.

Lemma ngrams_search_first_nonempty_witness :
  (∀ u, u ∈ [py "xy"] → docs_of db_scenario u = ∅) ∧
  docs_of db_scenario (py "cat") ≠ ∅ ∧
  ngrams_search db_scenario ([py "xy"] ++ py "cat" :: [py "dog"])
  = Traced ([py "xy"] ++ [py "cat"]) (Ok (Some (docs_of db_scenario (py "cat")))).
Proof.
  assert (∀ u, u ∈ [py "xy"] → docs_of db_scenario u = ∅) as Hpre.
  { intros u Hu. apply list_elem_of_singleton in Hu as ->.
    apply docs_of_empty. reflexivity. }
  assert (docs_of db_scenario (py "cat") ≠ ∅) as Ht.
  { intros Hempty. apply docs_of_empty in Hempty. discriminate Hempty. }
  split; [done|]. split; [done|].
  exact (ngrams_search_first_nonempty db_scenario _ [py "dog"] _ Hpre Ht).
Defined.

(** C10. When no bigram of the sequence has a posting (in particular for
    the empty sequence), [ngrams_search] looks every bigram up and returns
    [None], which is not the empty set. *)
Theorem ngrams_search_none (db : postings) (ngrams : list pystr) :
  (∀ u, u ∈ ngrams → docs_of db u = ∅) →
  ngrams_search db ngrams = Traced ngrams (Ok None) ∧
  outcome (ngrams_search db ngrams) ≠ Ok (Some ∅).
Proof.
  intros Hall. unfold ngrams_search.
  assert (ngrams_search_loop db ngrams (None, true) []
          = Traced ngrams (Ok None)) as ->; [|done].
  rewrite <- (app_nil_r ngrams) at 1.
  rewrite ngrams_search_loop_skip by done. done.
Qed.

Lemma ngrams_search_none_witness :
  (∀ u, u ∈ [py "xy"; py "yz"] → docs_of db_scenario u = ∅) ∧
  ngrams_search db_scenario [py "xy"; py "yz"]
    = Traced [py "xy"; py "yz"] (Ok None) ∧
  outcome (ngrams_search db_scenario [py "xy"; py "yz"]) ≠ Ok (Some ∅).
Proof.
  assert (∀ u, u ∈ [py "xy"; py "yz"] → docs_of db_scenario u = ∅) as Hall.
  { intros u Hu. apply docs_of_empty.
    apply elem_of_cons in Hu as [->|Hu]; [reflexivity|].
    apply list_elem_of_singleton in Hu as ->. reflexivity. }
  split; [done|].
  exact (ngrams_search_none db_scenario _ Hall).
Defined.

(** ** Dictionaries *)

Lemma Dict_get_setitem {V} (d : Dict.t V) (k k' : pystr) (v : V) :
  Dict.get (Dict.setitem d k v) k'
  = if decide (k = k') then Some v else Dict.get d k'.
Proof.
  induction d as [|[k0 v0] d IH]; cbn.
  - repeat case_decide; congruence.
  - destruct (decide (k0 = k)) as [->|Hne]; cbn.
    + repeat case_decide; congruence.
    + rewrite IH. repeat case_decide; congruence.
Qed.

Lemma Dict_get_keys {V} (d : Dict.t V) (k : pystr) :
  k ∈ Dict.keys d ↔ is_Some (Dict.get d k).
Proof.
  induction d as [|[k0 v0] d IH]; cbn.
  - split; [intros H; inversion H | intros [? ?]; done].
  - rewrite elem_of_cons, IH. case_decide as Hk.
    + split; [eauto | intros _; left; done].
    + split; [intros [?|?]; [congruence|done] | intros ?; by right].
Qed.

Lemma Dict_mem_get {V} (d : Dict.t V) (k : pystr) :
  Dict.mem d k = true ↔ is_Some (Dict.get d k).
Proof.
  unfold Dict.mem. destruct (Dict.get d k); split; eauto; try done.
Qed.

(** ** Rank fusion *)

Section MergeTableFacts.
Context {V : Type} (add : V → V → V) (half : V → V).

Lemma mergeTable_loop_spec (table1 table2 : Dict.t V) titles returnTable :
  (∀ k, k ∈ titles → is_Some (Dict.get table1 k)) →
  ∃ r, mergeTable_loop add half table1 table2 titles returnTable = Ok r ∧
       ∀ k, Dict.get r k
            = if decide (k ∈ titles) then merged add half table1 table2 k
              else Dict.get returnTable k.
Proof.
  revert returnTable.
  induction titles as [|title titles IH]; intros returnTable Hin.
  - exists returnTable. split; [done|]. intros k.
    case_decide as Hk; [inversion Hk | done].
  - destruct (Hin title) as [a Ha]; [left|].
    assert (∀ k, k ∈ titles → is_Some (Dict.get table1 k)) as Hin'
      by (intros k Hk; apply Hin; by right).
    cbn. unfold Dict.mem, Dict.getitem. rewrite Ha.
    destruct (Dict.get table2 title) as [b|] eqn:Hb; cbn.
    all: match goal with
         | |- context [mergeTable_loop _ _ _ _ _ ?rt] =>
             destruct (IH rt Hin') as (r & Hloop & Hr)
         end; exists r; split; [done|].
    all: intros k; rewrite Hr, Dict_get_setitem.
    all: destruct (decide (k ∈ titles)) as [Hk|Hk].
    all: try (rewrite decide_True by (by right); done).
    all: destruct (decide (title = k)) as [->|Hne].
    all: try (rewrite decide_True by left; unfold merged; by rewrite Ha, Hb).
    all: rewrite decide_False; [done|].
    all: intros [?|?]%elem_of_cons; congruence.
Qed.
End MergeTableFacts.

Lemma mergeTable_spec {V : Type} (add : V → V → V) (half : V → V)
  (table1 table2 : Dict.t V) :
  ∃ r, mergeTable add half table1 table2 = Ok r ∧
       ∀ k, Dict.get r k = merged add half table1 table2 k.
Proof.
  destruct (mergeTable_loop_spec add half table1 table2
              (Dict.keys table1) Dict.empty) as (r & Hr & Hget).
  { intros k. apply Dict_get_keys. }
  exists r. split; [done|]. intros k. rewrite Hget.
  case_decide as Hk; [done|]. unfold merged.
  destruct (Dict.get table1 k) eqn:Hg; [|done].
  exfalso. apply Hk, Dict_get_keys. by rewrite Hg.
Qed.

(** C3. [mergeTable] returns, without raising, a table in which every
    document of the primary table has the primary score plus 0.5 times
    the secondary score when the secondary table has the document, and the
    primary score unchanged when it has not; a document absent from the
    primary table is absent from the result. *)
Theorem mergeTable_scores (table1 table2 : Dict.t R) :
  ∃ r, mergeTable_R table1 table2 = Ok r ∧
    ∀ k, Dict.get r k =
      match Dict.get table1 k, Dict.get table2 k with
      | Some a, Some b => Some (a + b * 0.5)%R
      | Some a, None => Some a
      | None, _ => None
      end.
Proof.
  destruct (mergeTable_spec Rplus (λ b, (b * 0.5)%R) table1 table2)
    as (r & Hr & Hget).
  exists r. split; [exact Hr|]. intros k. rewrite Hget. unfold merged.
  by destruct (Dict.get table1 k), (Dict.get table2 k).
Qed.

(** The fourth scenario of the specification. *)
Example mergeTable_scenario :
  mergeTable_R [(py "D1", 2%R); (py "D2", 1%R)] [(py "D1", 1%R)]
  = Ok [(py "D1", (2 + 1 * 0.5)%R); (py "D2", 1%R)]
  ∧ (2 + 1 * 0.5 = 2.5)%R.
Proof. split; [reflexivity | lra]. Qed.

(** ** The query vector *)

Open Scope R_scope.

Lemma math_log_pos (x : R) : 0 < x → math_log x = Ok (ln x).
Proof. intros Hx. unfold math_log. by destruct (Rlt_dec 0 x). Qed.

Lemma termPoint_pos (N df : nat) :
  (0 < N)%nat → (0 < df)%nat →
  termPoint N df = Ok (1 + ln (INR df) * ln (INR N / INR df)).
Proof.
  intros HN Hdf. unfold termPoint.
  assert (0 < INR N) by (apply lt_0_INR; lia).
  assert (0 < INR df) by (apply lt_0_INR; lia).
  assert (0 < INR N / INR df) by (by apply Rdiv_lt_0_compat).
  rewrite (math_log_pos (INR df)) by done. cbn -[INR].
  rewrite math_log_pos by done. done.
Qed.

(** Without documents in the collection a seen term has no weight: the
    second logarithm is taken of 0. *)
Example termPoint_no_documents : termPoint 0 2 = Raise ValueError.
Proof.
  unfold termPoint, math_log. cbn.
  destruct (Rlt_dec 0 (1 + 1)) as [_|Hn]; [|lra]. cbn.
  destruct (Rlt_dec 0 (0 / (1 + 1))) as [Hp|_]; [lra|done].
Qed.

Lemma set_component_sized nterms dvs title n x v :
  vectors_sized nterms dvs → Dict.get dvs title = Some v → (n < nterms)%nat →
  ∃ dvs', set_component dvs title n x = Ok dvs' ∧ vectors_sized nterms dvs'.
Proof.
  intros Hwf Hget Hn. unfold set_component, Dict.getitem, list_setitem.
  rewrite Hget. cbn. pose proof (Hwf _ _ Hget) as Hlen.
  rewrite decide_True by lia. cbn. eexists. split; [done|].
  intros k w. rewrite Dict_get_setitem. case_decide.
  - intros [= <-]. by rewrite length_insert.
  - apply Hwf.
Qed.

Lemma cands_loop_sized cands nterms n x dvs :
  vectors_sized nterms dvs → (n < nterms)%nat →
  ∃ dvs', cands_loop cands nterms n x dvs = Ok dvs' ∧
          vectors_sized nterms dvs'.
Proof.
  revert dvs. induction cands as [|cand cands IH]; intros dvs Hwf Hn; cbn.
  - eauto.
  - unfold Dict.mem. destruct (Dict.get dvs cand) as [v|] eqn:Hget.
    + destruct (set_component_sized nterms dvs cand n x v)
        as (dvs' & -> & Hwf'); [done..|]. cbn. by apply IH.
    + destruct (set_component_sized nterms
                  (Dict.setitem dvs cand (replicate nterms 0)) cand n x
                  (replicate nterms 0)) as (dvs' & -> & Hwf'); [| |done|].
      * intros k w. rewrite Dict_get_setitem. case_decide.
        -- intros [= <-]. apply length_replicate.
        -- apply Hwf.
      * rewrite Dict_get_setitem. by rewrite decide_True.
      * cbn. by apply IH.
Qed.

Lemma vectors_loop_weights db N nterms terms n dvs qv :
  (0 < N)%nat → vectors_sized nterms dvs → (n + length terms = nterms)%nat →
  ∃ dvs', vectors_loop db N nterms terms n (dvs, qv)
          = Ok (dvs', qv ++ map (weight db N) terms).
Proof.
  intros HN. revert n dvs qv.
  induction terms as [|t terms IH]; intros n dvs qv Hwf Hlen.
  - cbn. rewrite app_nil_r. eauto.
  - cbn in Hlen.
    replace (qv ++ map (weight db N) (t :: terms))
      with ((qv ++ [weight db N t]) ++ map (weight db N) terms)
      by (by rewrite <- app_assoc).
    cbn [vectors_loop].
    destruct (length (select_document_id db t)) as [|df] eqn:Hdf.
    + assert (weight db N t = 0) as ->
        by (unfold weight; rewrite Hdf; done).
      cbn. apply IH; [done|lia].
    + assert (weight db N t
              = 1 + ln (INR (S df)) * ln (INR N / INR (S df))) as ->
        by (unfold weight; rewrite Hdf; done).
      replace (is_None (select_document_id db t) || (S df =? 0)%nat)
        with false by done.
      rewrite termPoint_pos by lia. cbn -[INR].
      destruct (cands_loop_sized (select_document_id db t) nterms n
                  (1 + ln (INR (S df)) * ln (INR N / INR (S df))) dvs)
        as (dvs' & -> & Hwf'); [done|lia|]. cbn -[INR].
      apply IH; [done|lia].
Qed.

(** With no document in the collection the weight of a seen term is
    undefined, whatever its number of rows. *)
Lemma termPoint_no_collection (df : nat) :
  termPoint 0 (S df) = Raise ValueError.
Proof.
  unfold termPoint.
  rewrite (math_log_pos (INR (S df))) by (apply lt_0_INR; lia).
  cbn -[INR]. unfold math_log.
  destruct (Rlt_dec 0 (INR 0 / INR (S df))) as [Hp|_]; [|done].
  exfalso. change (INR 0) with 0 in Hp. unfold Rdiv in Hp.
  rewrite Rmult_0_l in Hp. lra.
Qed.

(** The loop over the query terms for a collection without documents: it
    returns exactly when no query term has a posting row. *)
Lemma vectors_loop_no_collection db nterms terms n dvs qv :
  vectors_loop db 0 nterms terms n (dvs, qv)
  = if decide (Forall (λ t, length (select_document_id db t) = 0%nat) terms)
    then Ok (dvs, qv ++ map (weight db 0) terms)
    else Raise ValueError.
Proof.
  revert n qv. induction terms as [|t terms IH]; intros n qv.
  - cbn. rewrite decide_True by constructor. by rewrite app_nil_r.
  - cbn [vectors_loop].
    destruct (length (select_document_id db t)) as [|df] eqn:Hdf.
    + cbn. rewrite IH.
      destruct (decide (Forall _ terms)) as [Hall|Hnot].
      * rewrite decide_True by (by constructor).
        unfold weight at 2. rewrite Hdf. cbn. by rewrite <- app_assoc.
      * rewrite decide_False; [done|]. intros Hall. apply Hnot.
        by apply Forall_cons in Hall as [_ ?].
    + replace (is_None (select_document_id db t) || (S df =? 0)%nat)
        with false by done.
      rewrite termPoint_no_collection. cbn.
      rewrite decide_False; [done|]. intros Hall.
      apply Forall_cons in Hall as [Hz _]. lia.
Qed.

(** The two outcomes of the loop over the query terms. *)
Lemma vectors_returns db N terms :
  (N = 0%nat ∧
   (∃ t, t ∈ terms ∧ length (select_document_id db t) ≠ 0%nat) ∧
   vectors db N terms = Raise ValueError)
  ∨ ∃ dvs, vectors db N terms = Ok (dvs, map (weight db N) terms).
Proof.
  unfold vectors. destruct N as [|N].
  - rewrite vectors_loop_no_collection.
    destruct (decide (Forall (λ t, length (select_document_id db t) = 0%nat)
                        terms)) as [Hall|Hnot].
    + right. by exists Dict.empty.
    + left. split; [done|]. split; [|done].
      apply not_Forall_Exists in Hnot; [|intros t; apply _].
      apply Exists_exists in Hnot as (t & Ht & Hdf). by exists t.
  - right.
    destruct (vectors_loop_weights db (S N) (length terms) terms 0
                Dict.empty []) as (dvs & Hloop); [lia| |done|].
    { intros k v. done. }
    by exists dvs.
Qed.

(** C2. Whatever the document count [N], in every run in which the first
    loop of the ranking functions returns, the query vector that
    [sortSearch] and [sortSearchReturnTable] go on with has one weight per
    query term: at the position of every query term the weight 0 when the
    term has no posting row and [1 + ln df * ln (N / df)] otherwise, [df]
    being the number of posting rows of the term and [N] the document
    count of the collection.  The loop returns whenever the collection
    has a document or no query term has a posting row; in the one case
    left, a collection that reports no document while some query term has
    a posting row, the logarithm of [0 / df] is undefined and both
    functions raise [ValueError] before any vector is compared. *)
Theorem query_vector_weights (db : postings) (N : nat) (terms : list pystr) :
  (∀ dvs qv, vectors db N terms = Ok (dvs, qv) →
     sortSearch db N terms
       = ('(_, best_title) ← best_loop (Dict.items dvs) qv (Finite (-1), []);
          Ok best_title) ∧
     sortSearchReturnTable db N terms
       = table_loop (Dict.items dvs) qv Dict.empty ∧
     length qv = length terms ∧
     ∀ n t, terms !! n = Some t →
       qv !! n = Some
         (let df := length (select_document_id db t) in
          if decide (df = 0%nat) then 0
          else 1 + ln (INR df) * ln (INR N / INR df))) ∧
  ((0 < N)%nat ∨
   (∀ t, t ∈ terms → length (select_document_id db t) = 0%nat) →
   ∃ dvs qv, vectors db N terms = Ok (dvs, qv)) ∧
  (N = 0%nat →
   (∃ t, t ∈ terms ∧ length (select_document_id db t) ≠ 0%nat) →
   vectors db N terms = Raise ValueError ∧
   sortSearch db N terms = Raise ValueError ∧
   sortSearchReturnTable db N terms = Raise ValueError).
Proof.
  destruct (vectors_returns db N terms)
    as [(HN & (u & Hu & Hdf) & Hloop)|(dvs & Hloop)].
  - split; [|split].
    + intros dvs qv Hok. congruence.
    + intros [HN'|Hall]; [lia|]. by apply Hall in Hu.
    + intros _ _. unfold sortSearch, sortSearchReturnTable.
      by rewrite Hloop.
  - split; [|split].
    + intros dvs' qv Hok. rewrite Hloop in Hok.
      injection Hok as <- <-.
      unfold sortSearch, sortSearchReturnTable. rewrite Hloop.
      split; [done|]. split; [done|]. split; [apply length_map|].
      intros n t Hn. by rewrite list_lookup_fmap, Hn.
    + intros _. by exists dvs, (map (weight db N) terms).
    + intros -> (u & Hu & Hdf). exfalso.
      unfold vectors in Hloop. rewrite vectors_loop_no_collection in Hloop.
      rewrite decide_False in Hloop; [done|]. intros Hall.
      rewrite Forall_forall in Hall. by apply Hall in Hu.
Qed.

(** The query [cat, xy] on the postings of the first scenario, with
    three documents in the collection and with none. *)
Example query_vector_scenario :
  (∃ dvs, vectors db_scenario 3 [py "cat"; py "xy"]
          = Ok (dvs, [1 + ln (INR 2) * ln (INR 3 / INR 2); 0])) ∧
  vectors db_scenario 0 [py "cat"; py "xy"] = Raise ValueError ∧
  (∃ dvs, vectors db_scenario 0 [py "xy"] = Ok (dvs, [0])).
Proof.
  split; [|split].
  - destruct (vectors_returns db_scenario 3 [py "cat"; py "xy"])
      as [(HN & _)|(dvs & Hloop)]; [done|].
    exists dvs. rewrite Hloop. do 2 f_equal.
  - unfold vectors. rewrite vectors_loop_no_collection.
    rewrite decide_False; [done|]. intros Hall.
    apply Forall_cons in Hall as [Hcat _]. vm_compute in Hcat. done.
  - unfold vectors. rewrite vectors_loop_no_collection.
    rewrite decide_True; [by eexists|].
    repeat constructor.
Qed.

Close Scope R_scope.

(** ** Degenerate rankings *)

Open Scope R_scope.










Close Scope R_scope.

(** ** Index construction *)

Lemma Dict_keys_setitem {V} (d : Dict.t V) (k : pystr) (v : V) :
  Dict.keys (Dict.setitem d k v)
  = if Dict.mem d k then Dict.keys d else Dict.keys d ++ [k].
Proof.
  unfold Dict.mem, Dict.keys. induction d as [|[k0 v0] d IH]; cbn; [done|].
  destruct (decide (k0 = k)) as [->|Hne]; cbn; [done|].
  rewrite IH. by destruct (Dict.get d k).
Qed.

Lemma Dict_NoDup_setitem {V} (d : Dict.t V) (k : pystr) (v : V) :
  NoDup (Dict.keys d) → NoDup (Dict.keys (Dict.setitem d k v)).
Proof.
  intros Hnd. rewrite Dict_keys_setitem.
  destruct (Dict.mem d k) eqn:Hmem; [done|].
  apply NoDup_app. split; [done|]. split; [|apply NoDup_singleton].
  intros x Hx ->%list_elem_of_singleton.
  apply Dict_get_keys, Dict_mem_get in Hx. congruence.
Qed.

Lemma occurrences_in_cons node nodes t :
  occurrences_in (node :: nodes) t
  = ((if occurrence_of t node then 1 else 0) + occurrences_in nodes t)%nat.
Proof.
  unfold occurrences_in. rewrite filter_cons.
  destruct (occurrence_of t node); by case_decide.
Qed.

Lemma count_of_setitem d k v t :
  count_of (Dict.setitem d k v) t = if decide (k = t) then v else count_of d t.
Proof. unfold count_of. rewrite Dict_get_setitem. by case_decide. Qed.

Lemma counted_setitem d k v : counted d → 1 ≤ v → counted (Dict.setitem d k v).
Proof.
  intros [Hnd Hpos] Hv. split; [by apply Dict_NoDup_setitem|].
  intros x Hx. rewrite count_of_setitem. case_decide; [done|].
  apply Hpos. apply Dict_get_keys. apply Dict_get_keys in Hx.
  rewrite Dict_get_setitem in Hx. by rewrite decide_False in Hx.
Qed.

Lemma count_loop_spec nodes d0 d :
  count_loop nodes d0 = Ok d → counted d0 →
  counted d ∧ ∀ t, count_of d t = count_of d0 t + occurrences_in nodes t.
Proof.
  revert d0. induction nodes as [|node nodes IH]; intros d0 Hloop Hd0.
  - cbn in Hloop. injection Hloop as <-. split; [done|]. intros t.
    unfold occurrences_in. cbn. lia.
  - cbn in Hloop.
    assert (∀ t, occurrence_of t node = false →
                 occurrences_in (node :: nodes) t = occurrences_in nodes t)
      as Hskip by (intros t Ht; rewrite occurrences_in_cons, Ht; done).
    destruct (is_nor node) eqn:Hnor.
    2:{ destruct (IH d0 Hloop Hd0) as [Hd Hcount]. split; [done|].
        intros t. rewrite Hskip; [done|]. unfold occurrence_of.
        by rewrite Hnor. }
    destruct (indexed_term node (split_comma (feature node)))
      as [t'|e] eqn:Hterm; [|done].
    destruct (FilterWords.shouldBeIncluded (split_comma (feature node)))
      as [[|]|e] eqn:Hinc; [| |done]; cbn in Hloop.
    2:{ destruct (IH d0 Hloop Hd0) as [Hd Hcount]. split; [done|].
        intros t. rewrite Hskip; [done|]. unfold occurrence_of.
        rewrite Hnor, Hinc. done. }
    assert (∀ t, occurrence_of t node = bool_decide (t' = t)) as Hocc.
    { intros t. unfold occurrence_of. rewrite Hnor, Hinc, Hterm. done. }
    assert (∀ v, count_loop nodes (Dict.setitem d0 t' v) = Ok d →
                 1 ≤ v → v = count_of d0 t' + 1 →
                 counted d ∧
                 ∀ t, count_of d t
                      = count_of d0 t + occurrences_in (node :: nodes) t)
      as Hstep.
    { intros v Hd1 Hv Hveq.
      destruct (IH _ Hd1 (counted_setitem d0 t' v Hd0 Hv)) as [Hc Hcount].
      split; [done|]. intros t.
      rewrite Hcount, count_of_setitem, occurrences_in_cons, Hocc.
      case_decide as Ht.
      - subst t. rewrite bool_decide_eq_true_2 by done. lia.
      - rewrite bool_decide_eq_false_2 by done. lia. }
    unfold Dict.mem, Dict.getitem in Hloop.
    destruct (Dict.get d0 t') as [v|] eqn:Hget; cbn in Hloop.
    + apply (Hstep _ Hloop); [lia|]. unfold count_of. rewrite Hget. done.
    + apply (Hstep _ Hloop); [lia|]. unfold count_of. rewrite Hget. done.
Qed.

Lemma insert_loop_spec dict article_id terms db :
  (∀ t, t ∈ terms → t ∈ Dict.keys dict) →
  insert_loop dict article_id terms db
  = (db ++ map (λ t, Posting t article_id (count_of dict t)) terms, Ok ()).
Proof.
  revert db. induction terms as [|t terms IH]; intros db Hin; cbn.
  - by rewrite app_nil_r.
  - assert (t ∈ Dict.keys dict) as [v Hv]%Dict_get_keys by (apply Hin; left).
    unfold Dict.getitem. rewrite Hv. rewrite IH, <- app_assoc.
    + unfold count_of at 2. rewrite Hv. done.
    + intros u Hu. apply Hin. by right.
Qed.

Lemma shouldBeIncluded_total (features : list pystr) :
  2 ≤ length features → ∃ b, FilterWords.shouldBeIncluded features = Ok b.
Proof.
  destruct features as [|f0 [|f1 features]]; cbn; [lia..|]. intros _.
  unfold FilterWords.shouldBeIncluded, FilterWords.or_else,
    FilterWords.field1_is, index. cbn.
  repeat case_decide; cbn; repeat case_bool_decide; cbn; eauto.
Qed.

Lemma indexed_term_total (node : MeCabNode) (features : list pystr) :
  ∃ t, indexed_term node features = Ok t.
Proof.
  unfold indexed_term, index. case_decide as Hlen; [|eauto].
  destruct (features !! 6) as [t|] eqn:Hf; [eauto|].
  apply lookup_ge_None in Hf. lia.
Qed.

Lemma count_loop_total (nodes : list MeCabNode) (dict : Dict.t nat) :
  (∀ node, node ∈ nodes → is_nor node = true →
           2 ≤ length (split_comma (feature node))) →
  ∃ d, count_loop nodes dict = Ok d.
Proof.
  revert dict. induction nodes as [|node nodes IH]; intros dict Hwf; cbn.
  - eauto.
  - assert (∀ n, n ∈ nodes → is_nor n = true →
                 2 ≤ length (split_comma (feature n))) as Hwf'
      by (intros n Hn; apply Hwf; by right).
    destruct (is_nor node) eqn:Hnor; [|by apply IH].
    destruct (indexed_term_total node (split_comma (feature node)))
      as [t ->].
    destruct (shouldBeIncluded_total (split_comma (feature node)))
      as [[|] ->]; [apply Hwf; [left|done]| |]; cbn; [|by apply IH].
    unfold Dict.mem, Dict.getitem.
    destruct (Dict.get dict t); cbn; by apply IH.
Qed.

Section GenerateFacts.
Variable parse : pystr → list MeCabNode.

Lemma article_rows_spec a dict p :
  count_loop (parse (WikipediaArticle.text a)) Dict.empty = Ok dict →
  p ∈ article_rows a dict →
  document_id p = WikipediaArticle.id a ∧
  times p = occurrences parse a (term p) ∧ 1 ≤ times p.
Proof.
  intros Hc (t & -> & Ht)%list_elem_of_fmap. cbn.
  apply count_loop_spec in Hc as [[_ Hpos] Hcount].
  2:{ split; [constructor|]. intros k Hk. inversion Hk. }
  split; [done|]. split; [|by apply Hpos].
  rewrite Hcount. done.
Qed.

Lemma article_rows_NoDup a dict :
  count_loop (parse (WikipediaArticle.text a)) Dict.empty = Ok dict →
  NoDup (map (λ p, (term p, document_id p)) (article_rows a dict)).
Proof.
  intros Hc. apply count_loop_spec in Hc as [[Hnd _] _].
  2:{ split; [constructor|]. intros k Hk. inversion Hk. }
  unfold article_rows. rewrite map_map. cbn.
  apply (NoDup_fmap_2_strong (λ t, (t, WikipediaArticle.id a))); [|done].
  intros x y _ _ [=]. done.
Qed.

Lemma article_rows_complete a dict t :
  count_loop (parse (WikipediaArticle.text a)) Dict.empty = Ok dict →
  0 < occurrences parse a t →
  Posting t (WikipediaArticle.id a) (occurrences parse a t)
  ∈ article_rows a dict.
Proof.
  intros Hc Hocc. apply count_loop_spec in Hc as [_ Hcount].
  2:{ split; [constructor|]. intros k Hk. inversion Hk. }
  specialize (Hcount t). cbn in Hcount.
  apply list_elem_of_fmap. exists t. split.
  - by rewrite Hcount.
  - apply Dict_get_keys. unfold count_of in Hcount.
    destruct (Dict.get dict t); [done|].
    cbn in Hcount. unfold occurrences in Hocc.
    unfold occurrences_in in Hcount. lia.
Qed.

Lemma generate_loop_spec (articles : list WikipediaArticle.t) (db : postings) :
  ∃ rows, (generate_loop parse articles db).1 = db ++ rows ∧
    (∀ p, p ∈ rows →
       1 ≤ times p ∧
       ∃ a, a ∈ articles ∧ WikipediaArticle.id a = document_id p ∧
            times p = occurrences parse a (term p)) ∧
    (NoDup (map WikipediaArticle.id articles) →
     NoDup (map (λ p, (term p, document_id p)) rows)) ∧
    ((generate_loop parse articles db).2 = Ok () →
     ∀ a t, a ∈ articles → 0 < occurrences parse a t →
       Posting t (WikipediaArticle.id a) (occurrences parse a t) ∈ rows).
Proof.
  revert db. induction articles as [|a articles IH]; intros db.
  { exists []. cbn. rewrite app_nil_r. split; [done|].
    split; [intros p Hp; inversion Hp|]. split; [constructor|].
    intros _ a t Ha. inversion Ha. }
  cbn [generate_loop].
  destruct (count_loop (parse (WikipediaArticle.text a)) Dict.empty)
    as [dict|e] eqn:Hc.
  2:{ exists []. cbn. rewrite app_nil_r. split; [done|].
      split; [intros p Hp; inversion Hp|]. split; [constructor|done]. }
  rewrite insert_loop_spec by done. fold (article_rows a dict).
  destruct (IH (db ++ article_rows a dict))
    as (rows & Hrows & Hfreq & Hnd & Hall).
  exists (article_rows a dict ++ rows).
  split; [by rewrite Hrows, app_assoc|]. split; [|split].
  - intros p [Hp|Hp]%elem_of_app.
    + destruct (article_rows_spec a dict p Hc Hp) as (Hid & Ht & Hpos).
      split; [done|]. exists a. split; [left|done].
    + destruct (Hfreq p Hp) as (Hpos & a' & Ha' & Hrest).
      split; [done|]. exists a'. split; [by right|done].
  - intros [Hnotin Hnd']%NoDup_cons. rewrite map_app.
    apply NoDup_app. split; [by apply article_rows_NoDup|].
    split; [|by apply Hnd].
    intros [t d] (p & [= -> ->] & Hp)%list_elem_of_fmap
                 (q & [= Hqt Hqd] & Hq)%list_elem_of_fmap.
    destruct (article_rows_spec a dict p Hc Hp) as (Hid & _).
    destruct (Hfreq q Hq) as (_ & a' & Ha' & Hid' & _).
    apply Hnotin. apply list_elem_of_fmap. exists a'.
    split; [congruence|done].
  - intros Hok b t [->|Hb]%elem_of_cons Hocc.
    + apply elem_of_app. left. by apply article_rows_complete.
    + apply elem_of_app. right. by apply Hall.
Qed.
(** With at least two feature fields on every normal node, as the
    tokenizer produces them, the run returns. *)
Lemma generate_loop_returns (articles : list WikipediaArticle.t) (db : postings) :
  (∀ a node, a ∈ articles → node ∈ parse (WikipediaArticle.text a) →
             is_nor node = true → 2 ≤ length (split_comma (feature node))) →
  (generate_loop parse articles db).2 = Ok ().
Proof.
  revert db. induction articles as [|a articles IH]; intros db Hwf; [done|].
  cbn [generate_loop].
  destruct (count_loop_total (parse (WikipediaArticle.text a)) Dict.empty)
    as [dict ->]; [intros node; apply Hwf; left|].
  rewrite insert_loop_spec by done.
  apply IH. intros b node Hb. apply Hwf. by right.
Qed.
End GenerateFacts.

(** The indexed term that the code reads is the one of the
    specification: the lemma of a token with nine features, the surface
    of any other. *)
Lemma indexed_term_lemma_or_surface (node : MeCabNode) :
  indexed_term node (split_comma (feature node)) = Ok (lemma_or_surface node).
Proof.
  unfold indexed_term, lemma_or_surface.
  destruct (split_comma (feature node))
    as [|f0 [|f1 [|f2 [|f3 [|f4 [|f5 [|f6 [|f7 [|f8 [|f9 fs]]]]]]]]]];
    done.
Qed.

(** [shouldBeIncluded] returns [True] exactly on the tokens the filter
    of the specification lets through; where it raises, for want of a
    subcategory, the specification has no index-worthy token either. *)
Lemma shouldBeIncluded_index_worthy (node : MeCabNode) :
  match FilterWords.shouldBeIncluded (split_comma (feature node)) with
  | Ok true => true
  | _ => false
  end = index_worthy node.
Proof.
  unfold index_worthy.
  destruct (split_comma (feature node)) as [|cat [|sub rest]].
  - done.
  - unfold FilterWords.shouldBeIncluded, FilterWords.or_else,
      FilterWords.field1_is, index. cbn.
    repeat case_decide; reflexivity.
  - unfold FilterWords.shouldBeIncluded, FilterWords.or_else,
      FilterWords.field1_is, index. cbn.
    destruct (decide (cat = FilterWords.noun)) as [->|Hn].
    + rewrite (bool_decide_eq_true_2 (FilterWords.noun = FilterWords.noun))
        by done.
      rewrite (bool_decide_eq_false_2 (FilterWords.noun = FilterWords.adjective))
        by done.
      rewrite (bool_decide_eq_false_2 (FilterWords.noun = FilterWords.verb))
        by done.
      cbn. rewrite !orb_false_r.
      repeat (case_bool_decide; cbn; [subst|]).
      all: try done.
      all: exfalso.
      all: try (match goal with H : _ ∉ _ |- _ => apply H end;
                repeat first [ by left | right ]).
      match goal with H : _ ∈ _ |- _ =>
        repeat (apply elem_of_cons in H as [?|H]; [done|]);
        by apply elem_of_nil in H
      end.
    + rewrite (bool_decide_eq_false_2 (cat = FilterWords.noun)) by done. cbn.
      destruct (decide (cat = FilterWords.adjective)) as [->|Ha].
      * rewrite (bool_decide_eq_true_2
                   (FilterWords.adjective = FilterWords.adjective)) by done.
        rewrite (bool_decide_eq_false_2
                   (FilterWords.adjective = FilterWords.verb)) by done.
        cbn. rewrite orb_false_r. by case_bool_decide.
      * rewrite (bool_decide_eq_false_2 (cat = FilterWords.adjective)) by done.
        cbn. destruct (decide (cat = FilterWords.verb)) as [->|Hv].
        -- rewrite (bool_decide_eq_true_2
                      (FilterWords.verb = FilterWords.verb)) by done.
           cbn. by case_bool_decide.
        -- by rewrite (bool_decide_eq_false_2 (cat = FilterWords.verb)).
Qed.

(** The filtered occurrences that the code counts are the ones of the
    specification. *)
Lemma occurrence_of_filtered (t : pystr) (node : MeCabNode) :
  occurrence_of t node = filtered_occurrence t node.
Proof.
  unfold occurrence_of, filtered_occurrence.
  destruct (is_nor node); [cbn|done].
  rewrite indexed_term_lemma_or_surface, <- shouldBeIncluded_index_worthy.
  destruct (FilterWords.shouldBeIncluded _) as [[]|]; done.
Qed.

Lemma occurrences_filtered parse (a : WikipediaArticle.t) (t : pystr) :
  occurrences parse a t
  = filtered_occurrences (parse (WikipediaArticle.text a)) t.
Proof.
  unfold occurrences, filtered_occurrences. f_equal.
  apply list_filter_iff. intros node. by rewrite occurrence_of_filtered.
Qed.

(** C6. Every row that one run of [generate] adds to the table, whether
    the run returns or raises, carries as its frequency the number of
    tokens in the text of its document that pass the token filter and
    whose indexed term is the term of the row (at least 1), the indexed
    term of a token being its lemma when the tokenizer gives it nine
    features and its surface form otherwise; and no two of the rows have
    the same term and document.  When the run returns, every term with
    such an occurrence has its row, and the run returns when every
    normal node has at least two feature fields.  Document ids are
    unique in the collection. *)
Theorem generate_frequencies (parse : pystr → list MeCabNode)
  (collection : list WikipediaArticle.t) (db : postings) :
  NoDup (map WikipediaArticle.id collection) →
  ∃ rows, (generate parse collection db).1 = db ++ rows ∧
    (∀ p, p ∈ rows →
       1 ≤ times p ∧
       ∃ a, a ∈ collection ∧ WikipediaArticle.id a = document_id p ∧
            times p
            = filtered_occurrences (parse (WikipediaArticle.text a))
                (term p)) ∧
    NoDup (map (λ p, (term p, document_id p)) rows) ∧
    ((generate parse collection db).2 = Ok () →
     ∀ a t, a ∈ collection →
       0 < filtered_occurrences (parse (WikipediaArticle.text a)) t →
       Posting t (WikipediaArticle.id a)
         (filtered_occurrences (parse (WikipediaArticle.text a)) t) ∈ rows) ∧
    ((∀ a node, a ∈ collection → node ∈ parse (WikipediaArticle.text a) →
                is_nor node = true →
                2 ≤ length (split_comma (feature node))) →
     (generate parse collection db).2 = Ok ()).
Proof.
  intros Hids. unfold generate.
  destruct (generate_loop_spec parse collection db)
    as (rows & Hrows & Hfreq & Hnd & Hall).
  exists rows. split; [done|]. split.
  { intros p Hp. destruct (Hfreq p Hp) as (Hpos & a & Ha & Hid & Htimes).
    split; [done|]. exists a. by rewrite <- occurrences_filtered. }
  split; [auto|]. split.
  { intros Hok a t Ha. rewrite <- occurrences_filtered. by apply Hall. }
  apply generate_loop_returns.
Qed.

Example generate_two_articles :
  generate char_nodes two_articles []
  = ([ Posting (py "a") (py "D1") 2; Posting (py "b") (py "D1") 1;
       Posting (py "b") (py "D2") 1 ], Ok ()).
Proof. vm_compute. reflexivity. Qed.

(** The lemma a of the verb A and the surface a are counted as one term,
    and the particle is left out. *)
Example generate_tagged_articles :
  map lemma_or_surface (tagged_nodes (py "Aab."))
  = [py "a"; py "a"; py "b"; py "."] ∧
  map index_worthy (tagged_nodes (py "Aab.")) = [true; true; true; false] ∧
  map (λ node, length (split_comma (feature node))) (tagged_nodes (py "Aab."))
  = [9; 2; 2; 2] ∧
  generate tagged_nodes tagged_articles []
  = ([ Posting (py "a") (py "D1") 2; Posting (py "b") (py "D1") 1;
       Posting (py "b") (py "D2") 1 ], Ok ()).
Proof. repeat split; vm_compute; reflexivity. Qed.

Lemma generate_frequencies_witness :
  NoDup (map WikipediaArticle.id tagged_articles) ∧
  ∃ rows, (generate tagged_nodes tagged_articles []).1 = [] ++ rows ∧
    (∀ p, p ∈ rows →
       1 ≤ times p ∧
       ∃ a, a ∈ tagged_articles ∧ WikipediaArticle.id a = document_id p ∧
            times p
            = filtered_occurrences (tagged_nodes (WikipediaArticle.text a))
                (term p)) ∧
    NoDup (map (λ p, (term p, document_id p)) rows) ∧
    ((generate tagged_nodes tagged_articles []).2 = Ok () →
     ∀ a t, a ∈ tagged_articles →
       0 < filtered_occurrences (tagged_nodes (WikipediaArticle.text a)) t →
       Posting t (WikipediaArticle.id a)
         (filtered_occurrences (tagged_nodes (WikipediaArticle.text a)) t)
       ∈ rows) ∧
    ((∀ a node, a ∈ tagged_articles →
                node ∈ tagged_nodes (WikipediaArticle.text a) →
                is_nor node = true →
                2 ≤ length (split_comma (feature node))) →
     (generate tagged_nodes tagged_articles []).2 = Ok ()).
Proof.
  assert (NoDup (map WikipediaArticle.id tagged_articles)) as Hids.
  { apply (bool_decide_unpack _). vm_compute. exact I. }
  split; [done|].
  exact (generate_frequencies tagged_nodes tagged_articles [] Hids).
Defined.

(** ** Character bigrams *)












(** A text has one result of deleting the characters of a class. *)
Lemma deleting_functional (P : codepoint → bool) (s r r' : pystr) :
  deleting P s r → deleting P s r' → r = r'.
Proof.
  intros Hr. revert r'.
  induction Hr as [|c s r Hc _ IH|c s r Hc _ IH]; intros r' Hr'.
  - by inversion Hr'.
  - inversion Hr'; subst; [by apply IH|congruence].
  - inversion Hr'; subst; [congruence|]. f_equal. by apply IH.
Qed.


(** The third scenario of the specification, on a text that the
    normalization leaves as it is (猫犬鳥魚 for ABCD). *)
Example divide_ngrams_scenario :
  divide_ngrams (λ _, false) (λ s, s) [29483; 29356; 40165; 39770]%N
  = [ [29483; 29356]; [29356; 40165]; [40165; 39770]; [39770] ]%N.
Proof. vm_compute. reflexivity. Qed.

(** A text with spaces at its ends and inside, Latin letters, digits, a
    date marker and punctuation: 猫と犬 is what is left of it. *)
Example divide_ngrams_sample :
  normalized sample_isspace (λ s, s) sample_text = [29483; 12392; 29356]%N ∧
  divide_ngrams sample_isspace (λ s, s) sample_text
  = [ [29483; 12392]; [12392; 29356]; [29356] ]%N.
Proof. split; vm_compute; reflexivity. Qed.

(** * Further properties *)

(** ** The token filter *)

(** X1. [shouldBeIncluded] accepts a feature list exactly when its first
    two fields are a noun of one of the five listed kinds, an independent
    adjective or an independent verb.  On a list with a single field it
    answers [False] unless that field is one of the three categories, in
    which case reading the second field raises [IndexError]. *)
Theorem shouldBeIncluded_cases (features : list pystr) :
  FilterWords.shouldBeIncluded features =
    match features with
    | [] => Raise IndexError
    | [f0] =>
        if bool_decide (f0 ∈ [FilterWords.noun; FilterWords.adjective;
                              FilterWords.verb])
        then Raise IndexError else Ok false
    | f0 :: f1 :: _ =>
        Ok (bool_decide
              ((f0 = FilterWords.noun ∧
                f1 ∈ [FilterWords.verbal_noun; FilterWords.general;
                      FilterWords.adjectival_noun_stem;
                      FilterWords.proper_noun; FilterWords.numeral]) ∨
               (f0 = FilterWords.adjective ∧ f1 = FilterWords.independent) ∨
               (f0 = FilterWords.verb ∧ f1 = FilterWords.independent)))
    end.
Proof.
  assert (FilterWords.noun ≠ FilterWords.adjective) as Hna by discriminate.
  assert (FilterWords.noun ≠ FilterWords.verb) as Hnv by discriminate.
  assert (FilterWords.adjective ≠ FilterWords.verb) as Hav by discriminate.
  destruct features as [|f0 [|f1 features]]; [done| |];
    unfold FilterWords.shouldBeIncluded, FilterWords.or_else,
      FilterWords.field1_is, index; cbn.
  - destruct (decide (f0 = FilterWords.noun)) as [->|H1];
      [by rewrite bool_decide_eq_true_2 by (rewrite !elem_of_cons; auto)|].
    destruct (decide (f0 = FilterWords.adjective)) as [->|H2];
      [by rewrite bool_decide_eq_true_2 by (rewrite !elem_of_cons; auto)|].
    destruct (decide (f0 = FilterWords.verb)) as [->|H3];
      [by rewrite bool_decide_eq_true_2 by (rewrite !elem_of_cons; auto)|].
    rewrite bool_decide_eq_false_2; [done|].
    rewrite !elem_of_cons, elem_of_nil. tauto.
  - destruct (decide (f0 = FilterWords.noun)) as [->|H1].
    { destruct (decide (f1 ∈ [FilterWords.verbal_noun; FilterWords.general;
                              FilterWords.adjectival_noun_stem;
                              FilterWords.proper_noun; FilterWords.numeral]))
        as [Hin|Hin].
      - rewrite (bool_decide_eq_true_2 (_ ∨ _)) by auto.
        rewrite !elem_of_cons, elem_of_nil in Hin.
        repeat (case_bool_decide; cbn; [done|]). intuition congruence.
      - rewrite (bool_decide_eq_false_2 (_ ∨ _)) by intuition congruence.
        rewrite !elem_of_cons, elem_of_nil in Hin.
        repeat (case_bool_decide; cbn; [intuition congruence|]). done. }
    destruct (decide (f0 = FilterWords.adjective)) as [->|H2].
    { case_bool_decide; cbn; f_equal; symmetry.
      - apply bool_decide_eq_true_2. auto.
      - apply bool_decide_eq_false_2. intuition congruence. }
    destruct (decide (f0 = FilterWords.verb)) as [->|H3].
    { case_bool_decide; cbn; f_equal; symmetry.
      - apply bool_decide_eq_true_2. auto.
      - apply bool_decide_eq_false_2. intuition congruence. }
    f_equal; symmetry. apply bool_decide_eq_false_2. intuition congruence.
Qed.

(** ** Query extraction and the index *)

Lemma term_count_app t ws us :
  term_count t (ws ++ us) = term_count t ws + term_count t us.
Proof. unfold term_count. by rewrite filter_app, length_app. Qed.

Lemma term_count_singleton t u :
  term_count t [u] = if bool_decide (u = t) then 1 else 0.
Proof.
  unfold term_count. rewrite filter_cons, filter_nil.
  case_decide; case_bool_decide; done.
Qed.

Lemma term_count_pos t ws : t ∈ ws ↔ 0 < term_count t ws.
Proof.
  unfold term_count. induction ws as [|w ws IH].
  - rewrite filter_nil. cbn. split; [intros H; inversion H | lia].
  - rewrite filter_cons, elem_of_cons. case_decide as Hw; cbn.
    + split; [lia | auto].
    + rewrite IH. split; [intros [?|?]; [congruence|done] | auto].
Qed.

Lemma extractWords_loop_counts nodes terms ws :
  extractWords_loop FilterWords.shouldBeIncluded nodes terms = Ok ws →
  ∀ t, term_count t ws = term_count t terms + occurrences_in nodes t.
Proof.
  revert terms. induction nodes as [|node nodes IH]; intros terms Hloop t.
  - cbn in Hloop. injection Hloop as <-. unfold occurrences_in. cbn. lia.
  - cbn in Hloop. rewrite occurrences_in_cons. unfold occurrence_of.
    destruct (is_nor node); cbn; [|by apply IH].
    destruct (FilterWords.shouldBeIncluded (split_comma (feature node)))
      as [[|]|e]; cbn in Hloop; [| by apply IH | done].
    destruct (indexed_term node (split_comma (feature node))) as [t'|e];
      cbn in Hloop; [|done].
    rewrite (IH _ Hloop), term_count_app, term_count_singleton.
    case_bool_decide; lia.
Qed.

Lemma extractWords_loop_count_loop nodes terms ws dict :
  extractWords_loop FilterWords.shouldBeIncluded nodes terms = Ok ws →
  ∃ d, count_loop nodes dict = Ok d.
Proof.
  revert terms dict. induction nodes as [|node nodes IH];
    intros terms dict Hloop; cbn in *; [eauto|].
  destruct (is_nor node); [|by eapply IH].
  destruct (FilterWords.shouldBeIncluded (split_comma (feature node)))
    as [[|]|e]; cbn in *; [| | done].
  - destruct (indexed_term node (split_comma (feature node))) as [t'|e];
      cbn in *; [|done].
    unfold Dict.mem, Dict.getitem. destruct (Dict.get dict t'); cbn;
      by eapply IH.
  - destruct (indexed_term_total node (split_comma (feature node)))
      as [t' ->]. cbn. by eapply IH.
Qed.

(** X2. The words [extractWords] returns for a text, with the default
    filter, are the terms [generate] counts for a document with that text:
    the counting loop returns on the same tokens, and the frequency it
    records for a term is the number of times the term occurs in the list
    of words. *)
Theorem extractWords_matches_index (parse : pystr → list MeCabNode)
  (article : WikipediaArticle.t) (ws : list pystr) :
  extractWords parse (WikipediaArticle.text article)
    FilterWords.shouldBeIncluded = Ok ws →
  ∃ dict,
    count_loop (parse (WikipediaArticle.text article)) Dict.empty = Ok dict ∧
    (∀ t, count_of dict t = term_count t ws) ∧
    (∀ t, t ∈ Dict.keys dict ↔ t ∈ ws) ∧
    ∀ t, occurrences parse article t = term_count t ws.
Proof.
  unfold extractWords. intros Hws.
  destruct (extractWords_loop_count_loop _ _ _ Dict.empty Hws) as [dict Hc].
  pose proof (extractWords_loop_counts _ _ _ Hws) as Hcount.
  destruct (count_loop_spec _ _ _ Hc) as [[Hnd Hpos] Hdict].
  { split; [constructor|]. intros k Hk. inversion Hk. }
  assert (∀ t, count_of dict t = term_count t ws) as Heq.
  { intros t. etransitivity; [apply Hdict|].
    symmetry. etransitivity; [apply Hcount|]. done. }
  exists dict. split; [done|]. split; [done|]. split.
  - intros t. rewrite (term_count_pos t ws), <- Heq. split.
    + intros Hk. by apply Hpos.
    + intros Hk. apply Dict_get_keys. unfold count_of in Hk.
      destruct (Dict.get dict t); [done|]. cbn in Hk. lia.
  - intros t. symmetry. etransitivity; [apply Hcount|]. done.
Qed.

Lemma extractWords_matches_index_witness :
  extractWords char_nodes (WikipediaArticle.text
      (WikipediaArticle.Make (py "D1") (py "aab") (py "a")))
    FilterWords.shouldBeIncluded = Ok [py "a"; py "a"; py "b"] ∧
  ∃ dict,
    count_loop (char_nodes (WikipediaArticle.text
      (WikipediaArticle.Make (py "D1") (py "aab") (py "a")))) Dict.empty
    = Ok dict ∧
    (∀ t, count_of dict t = term_count t [py "a"; py "a"; py "b"]) ∧
    (∀ t, t ∈ Dict.keys dict ↔ t ∈ [py "a"; py "a"; py "b"]) ∧
    ∀ t, occurrences char_nodes
           (WikipediaArticle.Make (py "D1") (py "aab") (py "a")) t
         = term_count t [py "a"; py "a"; py "b"].
Proof.
  assert (extractWords char_nodes (WikipediaArticle.text
            (WikipediaArticle.Make (py "D1") (py "aab") (py "a")))
            FilterWords.shouldBeIncluded = Ok [py "a"; py "a"; py "b"]) as Hws
    by (vm_compute; reflexivity).
  split; [exact Hws|].
  exact (extractWords_matches_index char_nodes _ _ Hws).
Defined.

(** X3. Building the index and then searching with words that
    [extractWords] draws from the text of a document finds that document:
    when [generate] returns, [search] on any non-empty list of such words
    returns a set that contains the id of the document. *)
Theorem generate_then_search (parse : pystr → list MeCabNode)
  (collection : list WikipediaArticle.t) (db : postings)
  (article : WikipediaArticle.t) (ws terms : list pystr) :
  (generate parse collection db).2 = Ok () →
  article ∈ collection →
  extractWords parse (WikipediaArticle.text article)
    FilterWords.shouldBeIncluded = Ok ws →
  terms ≠ [] → (∀ t, t ∈ terms → t ∈ ws) →
  ∃ s, search (generate parse collection db).1 terms = Ok (TitlesSet s) ∧
       WikipediaArticle.id article ∈ s.
Proof.
  intros Hok Hin Hws Hne Hsub. unfold generate in *.
  destruct (generate_loop_spec parse collection db)
    as (rows & Hrows & _ & _ & Hall).
  specialize (Hall Hok). rewrite Hrows.
  destruct terms as [|t ts]; [done|]. rewrite search_cons.
  eexists. split; [done|]. apply elem_of_docs_of_all. intros u Hu.
  apply elem_of_docs_of.
  pose proof (extractWords_loop_counts _ _ _ Hws u) as Hcount.
  assert (0 < occurrences parse article u) as Hocc.
  { unfold occurrences. unfold occurrences_in in Hcount.
    apply Hsub, term_count_pos in Hu. cbn in Hcount. lia. }
  eexists. split; [apply elem_of_app; right; by apply Hall|done].
Qed.

Lemma generate_then_search_witness :
  (generate char_nodes two_articles []).2 = Ok () ∧
  WikipediaArticle.Make (py "D1") (py "aab") (py "a") ∈ two_articles ∧
  extractWords char_nodes (WikipediaArticle.text
      (WikipediaArticle.Make (py "D1") (py "aab") (py "a")))
    FilterWords.shouldBeIncluded = Ok [py "a"; py "a"; py "b"] ∧
  [py "b"; py "a"] ≠ [] ∧
  (∀ t, t ∈ [py "b"; py "a"] → t ∈ [py "a"; py "a"; py "b"]) ∧
  ∃ s, search (generate char_nodes two_articles []).1 [py "b"; py "a"]
       = Ok (TitlesSet s) ∧
       WikipediaArticle.id (WikipediaArticle.Make (py "D1") (py "aab") (py "a"))
       ∈ s.
Proof.
  assert ((generate char_nodes two_articles []).2 = Ok ()) as H1
    by (vm_compute; reflexivity).
  assert (WikipediaArticle.Make (py "D1") (py "aab") (py "a") ∈ two_articles)
    as H2 by left.
  assert (extractWords char_nodes (WikipediaArticle.text
            (WikipediaArticle.Make (py "D1") (py "aab") (py "a")))
            FilterWords.shouldBeIncluded = Ok [py "a"; py "a"; py "b"]) as H3
    by (vm_compute; reflexivity).
  assert ([py "b"; py "a"] ≠ []) as H4 by discriminate.
  assert (∀ t, t ∈ [py "b"; py "a"] → t ∈ [py "a"; py "a"; py "b"]) as H5.
  { intros t. rewrite !elem_of_cons, !elem_of_nil. tauto. }
  repeat (split; [assumption|]).
  exact (generate_then_search char_nodes two_articles [] _ _ _ H1 H2 H3 H4 H5).
Defined.

(** ** The two filters *)

Lemma split_comma_cons (s : pystr) : ∃ f fs, split_comma s = f :: fs.
Proof.
  induction s as [|c s (f & fs & IH)]; cbn; [eauto|].
  case_decide; [eauto|]. rewrite IH. eauto.
Qed.

Lemma shouldBeIncluded_excludeParticles (features : list pystr) :
  FilterWords.shouldBeIncluded features = Ok true →
  FilterWords.excludeParticles features = Ok true.
Proof.
  destruct features as [|f0 features]; [done|].
  unfold FilterWords.shouldBeIncluded, FilterWords.excludeParticles, index.
  cbn. intros Hinc. f_equal. apply bool_decide_eq_true_2. intros ->.
  rewrite !decide_False in Hinc by discriminate. done.
Qed.

Lemma extractWords_loop_filters nodes terms terms' ws :
  extractWords_loop FilterWords.shouldBeIncluded nodes terms = Ok ws →
  sublist terms terms' →
  ∃ ws', extractWords_loop FilterWords.excludeParticles nodes terms' = Ok ws' ∧
         sublist ws ws'.
Proof.
  revert terms terms'. induction nodes as [|node nodes IH];
    intros terms terms' Hloop Hsub; cbn in *.
  - injection Hloop as <-. eauto.
  - destruct (is_nor node); [|by eapply IH].
    destruct (split_comma_cons (feature node)) as (f0 & fs & Hsplit).
    destruct (FilterWords.shouldBeIncluded (split_comma (feature node)))
      as [[|]|e] eqn:Hinc; cbn in Hloop; [| |done].
    + rewrite (shouldBeIncluded_excludeParticles _ Hinc). cbn.
      destruct (indexed_term node (split_comma (feature node))) as [t|e];
        cbn in *; [|done].
      eapply IH; [done|]. by apply sublist_app.
    + rewrite Hsplit. unfold FilterWords.excludeParticles, index. cbn.
      destruct (indexed_term_total node (f0 :: fs)) as [t ->].
      case_bool_decide; cbn; eapply IH; try done.
      by apply sublist_inserts_r.
Qed.

(** X4. The default filter of [extractWords] is stricter than
    [excludeParticles]: when extraction with [shouldBeIncluded] returns a
    list of words, extraction with [excludeParticles] returns too, and the
    first list is a subsequence of the second. *)
Theorem extractWords_filters (parse : pystr → list MeCabNode)
  (query : pystr) (ws : list pystr) :
  extractWords parse query FilterWords.shouldBeIncluded = Ok ws →
  ∃ ws', extractWords parse query FilterWords.excludeParticles = Ok ws' ∧
         sublist ws ws'.
Proof.
  intros Hws. by eapply extractWords_loop_filters.
Qed.

Lemma extractWords_filters_witness :
  extractWords char_nodes (py "ab") FilterWords.shouldBeIncluded
    = Ok [py "a"; py "b"] ∧
  ∃ ws', extractWords char_nodes (py "ab") FilterWords.excludeParticles
           = Ok ws' ∧
         sublist [py "a"; py "b"] ws'.
Proof.
  assert (extractWords char_nodes (py "ab") FilterWords.shouldBeIncluded
          = Ok [py "a"; py "b"]) as Hws by (vm_compute; reflexivity).
  split; [exact Hws|].
  exact (extractWords_filters char_nodes _ _ Hws).
Defined.

(** ** The n-gram fallback against boolean retrieval *)

(** X5. Whatever set [ngrams_search] returns contains every document that
    [search] returns for the same sequence: the early return gives a
    superset of the intersection over all the bigrams. *)
Theorem ngrams_search_superset (db : postings) (ngrams : list pystr)
  (s : gset pystr) :
  outcome (ngrams_search db ngrams) = Ok (Some s) →
  ∃ v, search db ngrams = Ok v ∧ titles_members v ⊆ s.
Proof.
  intros Hs. rewrite search_total. eexists. split; [done|].
  assert (∃ t, t ∈ ngrams ∧ s = docs_of db t) as (t & Ht & ->).
  { unfold ngrams_search in Hs. revert Hs. generalize (@nil pystr).
    induction ngrams as [|u ngrams IH]; intros log Hs; cbn in Hs; [done|].
    case_decide as Hlen.
    - destruct (IH _ Hs) as (t & Ht & ->). exists t. split; [by right|done].
    - cbn in Hs. injection Hs as <-. exists u. split; [left|done]. }
  destruct ngrams as [|u us]; [inversion Ht|]. cbn [titles_members].
  intros d Hd. by apply (elem_of_docs_of_all db u us d).
Qed.

Lemma ngrams_search_superset_witness :
  outcome (ngrams_search db_scenario [py "cat"; py "dog"])
    = Ok (Some (docs_of db_scenario (py "cat"))) ∧
  ∃ v, search db_scenario [py "cat"; py "dog"] = Ok v ∧
       titles_members v ⊆ docs_of db_scenario (py "cat").
Proof.
  assert (outcome (ngrams_search db_scenario [py "cat"; py "dog"])
          = Ok (Some (docs_of db_scenario (py "cat")))) as Hs
    by (vm_compute; reflexivity).
  split; [exact Hs|].
  exact (ngrams_search_superset db_scenario _ _ Hs).
Defined.

(** ** Dictionaries with distinct keys *)

Lemma Dict_get_app {V} (d1 d2 : Dict.t V) (k : pystr) :
  Dict.get (d1 ++ d2) k
  = match Dict.get d1 k with Some v => Some v | None => Dict.get d2 k end.
Proof.
  induction d1 as [|[k0 v0] d1 IH]; cbn; [done|]. by case_decide.
Qed.

Lemma Dict_get_None {V} (d : Dict.t V) (k : pystr) :
  k ∉ Dict.keys d → Dict.get d k = None.
Proof.
  intros Hk. destruct (Dict.get d k) eqn:Hg; [|done].
  exfalso. apply Hk, Dict_get_keys. by rewrite Hg.
Qed.

Lemma Dict_setitem_fresh {V} (d : Dict.t V) (k : pystr) (v : V) :
  k ∉ Dict.keys d → Dict.setitem d k v = d ++ [(k, v)].
Proof.
  induction d as [|[k0 v0] d IH]; cbn; [done|].
  intros Hk. apply not_elem_of_cons in Hk as [Hne Hk].
  rewrite decide_False by done. by rewrite IH.
Qed.

Lemma Dict_keys_app {V} (d1 d2 : Dict.t V) :
  Dict.keys (d1 ++ d2) = Dict.keys d1 ++ Dict.keys d2.
Proof. unfold Dict.keys. apply map_app. Qed.

(** ** Rank fusion keeps the primary table's order *)

Lemma mergeTable_loop_map {V} (add : V → V → V) (half : V → V)
  (table1 table2 done todo : Dict.t V) :
  table1 = done ++ todo → NoDup (Dict.keys table1) →
  mergeTable_loop add half table1 table2 (Dict.keys todo)
    (map (λ kv, (kv.1, merged_score add half table2 kv.1 kv.2)) done)
  = Ok (map (λ kv, (kv.1, merged_score add half table2 kv.1 kv.2)) table1).
Proof.
  revert done. induction todo as [|[k a] todo IH]; intros done Heq Hnd.
  - cbn. by rewrite Heq, app_nil_r.
  - assert (k ∉ Dict.keys done) as Hk.
    { rewrite Heq, Dict_keys_app in Hnd. apply NoDup_app in Hnd as (_ & H & _).
      intros Hin. apply (H k Hin). left. }
    assert (Dict.get table1 k = Some a) as Hget.
    { rewrite Heq, Dict_get_app, Dict_get_None by done. cbn.
      by rewrite decide_True. }
    cbn [Dict.keys map fst mergeTable_loop]. unfold Dict.mem, Dict.getitem.
    rewrite Hget.
    assert (∀ v, Dict.setitem
                   (map (λ kv, (kv.1, merged_score add half table2 kv.1 kv.2))
                      done) k v
                 = map (λ kv, (kv.1, merged_score add half table2 kv.1 kv.2))
                     done ++ [(k, v)]) as Hset.
    { intros v. apply Dict_setitem_fresh. unfold Dict.keys.
      rewrite map_map. cbn. exact Hk. }
    specialize (IH (done ++ [(k, a)])).
    rewrite map_app in IH. cbn in IH. unfold merged_score at 2 in IH.
    destruct (Dict.get table2 k) as [b|]; cbn; rewrite Hset; apply IH;
      try done; by rewrite <- app_assoc.
Qed.

(** X6. On a primary table with distinct keys (as every [dict] has),
    [mergeTable] returns the primary table itself with each score
    replaced by the merged one: the documents and their order are kept,
    and a secondary table that shares no document with the primary one
    changes nothing. *)
Theorem mergeTable_keeps_order (table1 table2 : Dict.t R) :
  NoDup (Dict.keys table1) →
  ∃ r, mergeTable_R table1 table2 = Ok r ∧
    r = map (λ kv, (kv.1, match Dict.get table2 kv.1 with
                          | Some b => (kv.2 + b * 0.5)%R
                          | None => kv.2
                          end)) table1 ∧
    Dict.keys r = Dict.keys table1 ∧
    ((∀ k, k ∈ Dict.keys table1 → k ∉ Dict.keys table2) → r = table1).
Proof.
  intros Hnd. eexists. split.
  { unfold mergeTable_R, mergeTable.
    apply (mergeTable_loop_map Rplus (λ b, (b * 0.5)%R) table1 table2 []);
      done. }
  split; [done|]. split.
  - unfold Dict.keys. rewrite map_map. done.
  - intros Hdisj. rewrite <- (map_id table1) at 2. apply map_ext_in.
    intros [k a] Hin. unfold merged_score. cbn.
    rewrite Dict_get_None; [done|]. apply Hdisj.
    apply list_elem_of_fmap. exists (k, a). split; [done|].
    by apply list_elem_of_In.
Qed.

Lemma mergeTable_keeps_order_witness :
  NoDup (Dict.keys [(py "D2", 1%R); (py "D1", 2%R)]) ∧
  ∃ r, mergeTable_R [(py "D2", 1%R); (py "D1", 2%R)] [(py "D1", 1%R)] = Ok r ∧
    r = map (λ kv, (kv.1, match Dict.get [(py "D1", 1%R)] kv.1 with
                          | Some b => (kv.2 + b * 0.5)%R
                          | None => kv.2
                          end)) [(py "D2", 1%R); (py "D1", 2%R)] ∧
    Dict.keys r = Dict.keys [(py "D2", 1%R); (py "D1", 2%R)] ∧
    ((∀ k, k ∈ Dict.keys [(py "D2", 1%R); (py "D1", 2%R)] →
           k ∉ Dict.keys [(py "D1", 1%R)]) →
     r = [(py "D2", 1%R); (py "D1", 2%R)]).
Proof.
  assert (NoDup (Dict.keys [(py "D2", 1%R); (py "D1", 2%R)])) as Hnd.
  { apply (bool_decide_unpack _). vm_compute. exact I. }
  split; [exact Hnd|].
  exact (mergeTable_keeps_order _ [(py "D1", 1%R)] Hnd).
Defined.

(** ** The best document of a rank table *)

Lemma Dict_get_elem_of {V} (d : Dict.t V) (k : pystr) (v : V) :
  NoDup (Dict.keys d) → (k, v) ∈ d → Dict.get d k = Some v.
Proof.
  induction d as [|[k0 v0] d IH]; cbn; [intros _ H; inversion H|].
  intros [Hk0 Hnd]%NoDup_cons [[= -> ->]|Hin]%elem_of_cons.
  - by rewrite decide_True.
  - rewrite decide_False; [by apply IH|]. intros ->. apply Hk0.
    apply list_elem_of_fmap. by exists (k, v).
Qed.

Lemma returnBestFromTable_loop_scan (table done todo : Dict.t np_float)
  (max_title : pystr) (max_val : np_float) :
  table = done ++ todo → NoDup (Dict.keys table) →
  returnBestFromTable_loop table (Dict.keys todo) (max_title, max_val)
  = Ok ((foldl best_step (max_val, max_title) todo).2,
        (foldl best_step (max_val, max_title) todo).1).
Proof.
  revert done max_title max_val.
  induction todo as [|[k c] todo IH]; intros done max_title max_val Heq Hnd.
  - done.
  - assert (Dict.get table k = Some c) as Hget.
    { apply Dict_get_elem_of; [done|]. rewrite Heq.
      apply elem_of_app. right. left. }
    cbn [Dict.keys map fst returnBestFromTable_loop foldl].
    unfold Dict.getitem. rewrite Hget. cbn. unfold best_step at 2 4. cbn.
    destruct (np_lt max_val c); cbn;
      apply (IH (done ++ [(k, c)])); try done; by rewrite <- app_assoc.
Qed.

Lemma returnBestFromTable_scan (table : Dict.t np_float) :
  NoDup (Dict.keys table) →
  returnBestFromTable table
  = Ok (foldl best_step (Finite (-1), []) table).2.
Proof.
  intros Hnd. unfold returnBestFromTable.
  by rewrite (returnBestFromTable_loop_scan table [] table).
Qed.

Lemma best_loop_scores items qv st :
  best_loop items qv st = (tbl ← scores items qv; Ok (foldl best_step st tbl)).
Proof.
  revert st. induction items as [|[k dv] items IH]; intros [m b]; [done|].
  cbn. destruct (cosine dv qv) as [c|e]; [|done]. cbn.
  rewrite IH. destruct (scores items qv); [|done]. reflexivity.
Qed.

Lemma scores_keys items qv tbl :
  scores items qv = Ok tbl → Dict.keys tbl = Dict.keys items.
Proof.
  revert tbl. induction items as [|[k dv] items IH]; intros tbl; cbn.
  - by intros [= <-].
  - destruct (cosine dv qv); [|done]. cbn.
    destruct (scores items qv) as [rest|]; [|done]. cbn.
    intros [= <-]. cbn. f_equal. by apply IH.
Qed.

Lemma table_loop_scores items qv table :
  NoDup (Dict.keys table ++ Dict.keys items) →
  table_loop items qv table = (tbl ← scores items qv; Ok (table ++ tbl)).
Proof.
  revert table. induction items as [|[k dv] items IH]; intros table Hnd; cbn.
  - by rewrite app_nil_r.
  - destruct (cosine dv qv) as [c|e]; [|done]. cbn.
    cbn in Hnd. apply NoDup_app in Hnd as (Hnd1 & Hdisj & Hnd2).
    rewrite Dict_setitem_fresh by (intros Hin; apply (Hdisj k Hin); left).
    rewrite IH.
    + destruct (scores items qv); [|done]. cbn. by rewrite <- app_assoc.
    + rewrite Dict_keys_app. cbn. rewrite <- app_assoc. cbn.
      apply NoDup_app. split; [done|]. split; [|done].
      intros x Hx Hin. by apply (Hdisj x Hx).
Qed.

Lemma set_component_keys dvs title n x dvs' :
  set_component dvs title n x = Ok dvs' → Dict.mem dvs title = true →
  Dict.keys dvs' = Dict.keys dvs.
Proof.
  unfold set_component, Dict.getitem, list_setitem. intros Hset Hmem.
  destruct (Dict.get dvs title); [|done]. cbn in Hset.
  case_decide; [|done]. cbn in Hset. injection Hset as <-.
  by rewrite Dict_keys_setitem, Hmem.
Qed.

Lemma cands_loop_NoDup cands nterms n x dvs dvs' :
  cands_loop cands nterms n x dvs = Ok dvs' →
  NoDup (Dict.keys dvs) → NoDup (Dict.keys dvs').
Proof.
  revert dvs. induction cands as [|cand cands IH]; intros dvs Hloop Hnd.
  - cbn in Hloop. by injection Hloop as <-.
  - cbn in Hloop. destruct (Dict.mem dvs cand) eqn:Hmem.
    + destruct (set_component dvs cand n x) as [d|] eqn:Hset; [|done].
      cbn in Hloop. apply (IH _ Hloop).
      by rewrite (set_component_keys _ _ _ _ _ Hset Hmem).
    + destruct (set_component _ cand n x) as [d|] eqn:Hset; [|done].
      cbn in Hloop. apply (IH _ Hloop).
      rewrite (set_component_keys _ _ _ _ _ Hset).
      * by apply Dict_NoDup_setitem.
      * apply Dict_mem_get. rewrite Dict_get_setitem.
        by rewrite decide_True.
Qed.

Lemma vectors_loop_NoDup db N nterms terms n dvs qv dvs' qv' :
  vectors_loop db N nterms terms n (dvs, qv) = Ok (dvs', qv') →
  NoDup (Dict.keys dvs) → NoDup (Dict.keys dvs').
Proof.
  revert n dvs qv. induction terms as [|t terms IH]; intros n dvs qv Hloop Hnd.
  - cbn in Hloop. by injection Hloop as <- _.
  - cbn [vectors_loop] in Hloop.
    destruct (is_None (select_document_id db t)
              || (length (select_document_id db t) =? 0)).
    + by eapply IH.
    + destruct (termPoint N (length (select_document_id db t))) as [x|];
        [|done]. cbn in Hloop.
      destruct (cands_loop (select_document_id db t) nterms n x dvs)
        as [d|] eqn:Hc; [|done]. cbn in Hloop.
      eapply IH; [done|]. by eapply cands_loop_NoDup.
Qed.

(** X7. [sortSearch] returns what [returnBestFromTable] selects from the
    table of [sortSearchReturnTable], and raises the same error when the
    table cannot be built. *)
Theorem sortSearch_from_table (db : postings) (N : nat) (terms : list pystr) :
  sortSearch db N terms
  = (table ← sortSearchReturnTable db N terms; returnBestFromTable table).
Proof.
  unfold sortSearch, sortSearchReturnTable.
  destruct (vectors db N terms) as [[dvs qv]|e] eqn:Hv; [|done]. cbn.
  assert (NoDup (Dict.keys dvs)) as Hnd.
  { unfold vectors in Hv. eapply vectors_loop_NoDup; [done|]. constructor. }
  rewrite best_loop_scores, table_loop_scores by done.
  unfold Dict.items. destruct (scores dvs qv) as [tbl|e] eqn:Hs; [|done].
  cbn -[returnBestFromTable]. rewrite returnBestFromTable_scan.
  - by destruct (foldl best_step (Finite (-1), []) tbl).
  - by rewrite (scores_keys _ _ _ Hs).
Qed.

Lemma best_step_scan_finite (table : list (pystr * np_float)) (m0 : R)
  (b0 : pystr) :
  Forall (λ kv, ∃ v, kv.2 = Finite v) table →
  ∃ m, (foldl best_step (Finite m0, b0) table).1 = Finite m ∧
    (m0 <= m)%R ∧
    (∀ k v, (k, Finite v) ∈ table → (v <= m)%R) ∧
    ((m = m0 ∧ (foldl best_step (Finite m0, b0) table).2 = b0) ∨
     ((m0 < m)%R ∧
      ∃ before after,
        table = before
                ++ ((foldl best_step (Finite m0, b0) table).2, Finite m)
                   :: after ∧
        ∀ k v, (k, Finite v) ∈ before → (v < m)%R)).
Proof.
  intros Hfin. revert m0 b0.
  induction Hfin as [|[k c] table [v Hv] _ IH]; intros m0 b0.
  - exists m0. cbn. split; [done|]. split; [lra|].
    split; [intros k v H; inversion H|]. by left.
  - cbn in Hv. subst c. cbn [foldl]. unfold best_step at 2 4 6. cbn.
    destruct (Rlt_dec m0 v) as [Hlt|Hge].
    + destruct (IH v k) as (m & Hm & Hle & Hall & Hcase).
      exists m. split; [done|]. split; [lra|]. split.
      * intros k' v' [[= -> ->]|Hin]%elem_of_cons; [done|]. by eapply Hall.
      * right. split; [lra|]. destruct Hcase as [[-> ->]|(Hlt' & bf & af & Heq & Hbf)].
        -- exists [], table. split; [done|]. intros ?? H; inversion H.
        -- exists ((k, Finite v) :: bf), af. split; [by rewrite Heq at 1|].
           intros k' v' [[= -> ->]|Hin]%elem_of_cons; [done|]. by eapply Hbf.
    + destruct (IH m0 b0) as (m & Hm & Hle & Hall & Hcase).
      exists m. split; [done|]. split; [done|]. split.
      * intros k' v' [[= -> ->]|Hin]%elem_of_cons; [lra|]. by eapply Hall.
      * destruct Hcase as [[-> ->]|(Hlt' & bf & af & Heq & Hbf)];
          [by left|]. right. split; [done|].
        exists ((k, Finite v) :: bf), af. split; [by rewrite Heq at 1|].
        intros k' v' [[= -> ->]|Hin]%elem_of_cons; [lra|]. by eapply Hbf.
Qed.

(** X8. On a table with distinct keys and finite scores,
    [returnBestFromTable] returns the empty string when no score exceeds
    -1 (in particular on the empty table); otherwise it returns the first
    document, in the order of the table, whose score is the largest. *)
Theorem returnBestFromTable_maximal (table : Dict.t np_float) :
  NoDup (Dict.keys table) →
  Forall (λ kv, ∃ v, kv.2 = Finite v) table →
  ∃ best, returnBestFromTable table = Ok best ∧
    ((best = [] ∧ ∀ k v, (k, Finite v) ∈ table → (v <= -1)%R) ∨
     ∃ v before after,
       table = before ++ (best, Finite v) :: after ∧ (-1 < v)%R ∧
       (∀ k v', (k, Finite v') ∈ before → (v' < v)%R) ∧
       (∀ k v', (k, Finite v') ∈ table → (v' <= v)%R)).
Proof.
  intros Hnd Hfin. rewrite returnBestFromTable_scan by done.
  eexists. split; [done|].
  destruct (best_step_scan_finite table (-1) [] Hfin)
    as (m & Hm & Hle & Hall & Hcase).
  destruct Hcase as [[-> Hb]|(Hlt & bf & af & Heq & Hbf)].
  - left. split; [done|]. exact Hall.
  - right. exists m, bf, af. split; [done|]. split; [done|]. split; done.
Qed.

Lemma returnBestFromTable_maximal_witness :
  NoDup (Dict.keys [(py "D1", Finite 0.5); (py "D2", Finite 1);
                    (py "D3", Finite 1)]) ∧
  Forall (λ kv, ∃ v, kv.2 = Finite v)
    [(py "D1", Finite 0.5); (py "D2", Finite 1); (py "D3", Finite 1)] ∧
  ∃ best, returnBestFromTable [(py "D1", Finite 0.5); (py "D2", Finite 1);
                               (py "D3", Finite 1)] = Ok best ∧
    ((best = [] ∧
      ∀ k v, (k, Finite v) ∈ [(py "D1", Finite 0.5); (py "D2", Finite 1);
                              (py "D3", Finite 1)] → (v <= -1)%R) ∨
     ∃ v before after,
       [(py "D1", Finite 0.5); (py "D2", Finite 1); (py "D3", Finite 1)]
       = before ++ (best, Finite v) :: after ∧ (-1 < v)%R ∧
       (∀ k v', (k, Finite v') ∈ before → (v' < v)%R) ∧
       (∀ k v', (k, Finite v') ∈ [(py "D1", Finite 0.5); (py "D2", Finite 1);
                                  (py "D3", Finite 1)] → (v' <= v)%R)).
Proof.
  assert (NoDup (Dict.keys [(py "D1", Finite 0.5); (py "D2", Finite 1);
                            (py "D3", Finite 1)])) as Hnd.
  { apply (bool_decide_unpack _). vm_compute. exact I. }
  assert (Forall (λ kv, ∃ v, kv.2 = Finite v)
            [(py "D1", Finite 0.5); (py "D2", Finite 1); (py "D3", Finite 1)])
    as Hfin by (repeat constructor; eexists; reflexivity).
  split; [exact Hnd|]. split; [exact Hfin|].
  exact (returnBestFromTable_maximal _ Hnd Hfin).
Defined.

(** ** The document vectors of a ranking *)

Lemma hits_snoc db pre t :
  hits db (pre ++ [t]) = hits db pre ++ select_document_id db t.
Proof. unfold hits. rewrite map_app, concat_app. cbn. by rewrite app_nil_r. Qed.

Lemma masked_length db title terms qv :
  length qv = length terms → length (masked db title terms qv) = length terms.
Proof. intros Hlen. unfold masked. rewrite length_zip_with. lia. Qed.

Lemma masked_snoc db title pre qv t x :
  length qv = length pre →
  masked db title (pre ++ [t]) (qv ++ [x])
  = masked db title pre qv
    ++ [if bool_decide (title ∈ select_document_id db t) then x else 0%R].
Proof. intros Hlen. unfold masked. by rewrite zip_with_app. Qed.

Lemma masked_no_hit db title terms qv :
  length qv = length terms → title ∉ hits db terms →
  masked db title terms qv = replicate (length terms) 0%R.
Proof.
  revert qv. induction terms as [|t terms IH]; intros [|w qv] Hlen Hno;
    try done.
  unfold hits in Hno. cbn in Hno. apply not_elem_of_app in Hno as [Ht Hno].
  cbn. rewrite bool_decide_eq_false_2 by done. f_equal.
  apply IH; [by injection Hlen|done].
Qed.

Lemma set_component_get dvs title n x dvs' v :
  Dict.get dvs title = Some v → set_component dvs title n x = Ok dvs' →
  ∀ k, Dict.get dvs' k
       = if decide (title = k) then Some (<[n:=x]> v) else Dict.get dvs k.
Proof.
  unfold set_component, Dict.getitem, list_setitem. intros -> Hset. cbn in Hset.
  case_decide; [|done]. cbn in Hset. injection Hset as <-.
  intros k. apply Dict_get_setitem.
Qed.

Lemma cands_loop_get cands nterms n x dvs dvs' :
  cands_loop cands nterms n x dvs = Ok dvs' →
  ∀ title, Dict.get dvs' title
    = if bool_decide (title ∈ cands)
      then Some (<[n:=x]> (default (replicate nterms 0%R) (Dict.get dvs title)))
      else Dict.get dvs title.
Proof.
  revert dvs. induction cands as [|cand cands IH]; intros dvs Hloop title.
  - cbn in Hloop. by injection Hloop as <-.
  - cbn in Hloop.
    assert (∃ d, cands_loop cands nterms n x d = Ok dvs' ∧
              ∀ k, Dict.get d k
                   = if decide (cand = k)
                     then Some (<[n:=x]> (default (replicate nterms 0%R)
                                            (Dict.get dvs cand)))
                     else Dict.get dvs k) as (d & Hd & Hget).
    { unfold Dict.mem in Hloop.
      destruct (Dict.get dvs cand) as [v|] eqn:Hv.
      - destruct (set_component dvs cand n x) as [d|] eqn:Hset; [|done].
        exists d. split; [done|]. cbn.
        by apply (set_component_get dvs cand n x d v).
      - destruct (set_component _ cand n x) as [d|] eqn:Hset; [|done].
        exists d. split; [done|]. cbn. intros k.
        assert (Dict.get (Dict.setitem dvs cand (replicate nterms 0%R)) cand
                = Some (replicate nterms 0%R)) as Hnew
          by (rewrite Dict_get_setitem; by rewrite decide_True).
        rewrite (set_component_get _ cand n x d _ Hnew Hset).
        case_decide; [done|]. rewrite Dict_get_setitem.
        by rewrite decide_False. }
    rewrite (IH _ Hd), !Hget.
    destruct (decide (cand = title)) as [->|Hne].
    + rewrite (bool_decide_eq_true_2 (title ∈ title :: cands)) by left.
      case_bool_decide; [|done]. cbn. by rewrite list_insert_insert_eq.
    + case_bool_decide as Hin.
      * by rewrite bool_decide_eq_true_2 by (by right).
      * rewrite bool_decide_eq_false_2; [done|].
        intros [?|?]%elem_of_cons; congruence.
Qed.

Lemma vectors_loop_get db N nterms pre terms n dvs qv dvs' qv' :
  vectors_loop db N nterms terms n (dvs, qv) = Ok (dvs', qv') →
  length pre = n → length qv = n → n + length terms = nterms →
  (∀ title, Dict.get dvs title
     = if bool_decide (title ∈ hits db pre)
       then Some (masked db title pre qv ++ replicate (nterms - n) 0%R)
       else None) →
  length qv' = nterms ∧
  ∀ title, Dict.get dvs' title
    = if bool_decide (title ∈ hits db (pre ++ terms))
      then Some (masked db title (pre ++ terms) qv')
      else None.
Proof.
  revert pre n dvs qv.
  induction terms as [|t terms IH]; intros pre n dvs qv Hloop Hpre Hqv Hn Hinv.
  - cbn in Hloop, Hn. injection Hloop as <- <-. rewrite app_nil_r.
    split; [lia|]. intros title. rewrite Hinv.
    replace (nterms - n) with 0 by lia.
    by rewrite app_nil_r.
  - cbn [length] in Hn.
    assert (∃ x d, vectors_loop db N nterms terms (S n) (d, qv ++ [x])
                   = Ok (dvs', qv') ∧
              ∀ title, Dict.get d title
                = if bool_decide (title ∈ select_document_id db t)
                  then Some (<[n:=x]> (default (replicate nterms 0%R)
                                         (Dict.get dvs title)))
                  else Dict.get dvs title) as (x & d & Hd & Hget).
    { cbn [vectors_loop] in Hloop. unfold is_None in Hloop. cbn [orb] in Hloop.
      destruct (select_document_id db t) as [|c cs] eqn:Hsel.
      - cbn in Hloop. exists 0%R, dvs. split; [exact Hloop|]. intros title.
        rewrite bool_decide_eq_false_2; [done|]. intros H; inversion H.
      - cbn [length Nat.eqb] in Hloop.
        destruct (termPoint N (S (length cs))) as [x|];
          cbn [mbind result_bind] in Hloop; [|done].
        destruct (cands_loop (c :: cs) nterms n x dvs) as [d|] eqn:Hc;
          cbn [mbind result_bind] in Hloop; [|done].
        exists x, d. split; [done|]. by apply cands_loop_get. }
    replace (pre ++ t :: terms) with ((pre ++ [t]) ++ terms)
      by (by rewrite <- app_assoc).
    apply (IH (pre ++ [t]) (S n) d (qv ++ [x]) Hd).
    + rewrite length_app. cbn. lia.
    + rewrite length_app. cbn. lia.
    + lia.
    + intros title. rewrite Hget, Hinv, hits_snoc, masked_snoc by lia.
      assert (length (masked db title pre qv) = n) as Hm
        by (rewrite masked_length; lia).
      replace (nterms - n) with (S (nterms - S n)) by lia.
      destruct (decide (title ∈ select_document_id db t)) as [Hin|Hin].
      * rewrite !(bool_decide_eq_true_2 (title ∈ select_document_id db t))
          by done.
        rewrite (bool_decide_eq_true_2 (title ∈ _ ++ _))
          by (apply elem_of_app; by right).
        f_equal. case_bool_decide as Hpast; cbn.
        -- rewrite insert_app_r_alt by lia. rewrite Hm, Nat.sub_diag. cbn.
           by rewrite <- app_assoc.
        -- rewrite (masked_no_hit db title pre qv) by (done || lia).
           replace (replicate nterms 0%R)
             with (replicate (length pre) 0%R
                   ++ replicate (S (nterms - S n)) 0%R)
             by (rewrite <- replicate_add; f_equal; lia).
           rewrite insert_app_r_alt by (rewrite length_replicate; lia).
           rewrite length_replicate, Hpre, Nat.sub_diag. cbn.
           by rewrite <- app_assoc.
      * rewrite !(bool_decide_eq_false_2 (title ∈ select_document_id db t))
          by done.
        case_bool_decide as Hpast.
        -- rewrite bool_decide_eq_true_2 by (apply elem_of_app; by left).
           cbn. by rewrite <- app_assoc.
        -- rewrite bool_decide_eq_false_2; [done|].
           intros [?|?]%elem_of_app; done.
Qed.

Lemma vectors_get (db : postings) (N : nat) (terms : list pystr)
  (dvs : Dict.t (list R)) (qv : list R) :
  vectors db N terms = Ok (dvs, qv) →
  length qv = length terms ∧
  ∀ title, Dict.get dvs title
    = if bool_decide (title ∈ hits db terms)
      then Some (masked db title terms qv)
      else None.
Proof.
  intros Hv. unfold vectors in Hv.
  apply (vectors_loop_get db N (length terms) [] terms 0 Dict.empty [] dvs qv Hv);
    try done.
Qed.

(** X9. When the first loop of the ranking functions returns, the
    dictionary it has built holds exactly the documents with a posting
    for at least one query term, and the vector of a document is the query
    vector with 0 at the positions of the terms it has no posting for. *)
Theorem document_vectors (db : postings) (N : nat) (terms : list pystr)
  (dvs : Dict.t (list R)) (qv : list R) :
  vectors db N terms = Ok (dvs, qv) →
  length qv = length terms ∧
  ∀ title, Dict.get dvs title
    = if bool_decide (title ∈ hits db terms)
      then Some (masked db title terms qv)
      else None.
Proof. apply vectors_get. Qed.

Lemma vectors_db_one :
  vectors db_one 1 [py "a"] = Ok ([(py "D1", [weight_one])], [weight_one]).
Proof.
  unfold vectors. cbn [vectors_loop length].
  change (select_document_id db_one (py "a")) with [py "D1"].
  cbn [length is_None orb Nat.eqb].
  rewrite termPoint_pos by lia. reflexivity.
Qed.

Lemma document_vectors_witness :
  vectors db_one 1 [py "a"] = Ok ([(py "D1", [weight_one])], [weight_one]) ∧
  length [weight_one] = length [py "a"] ∧
  ∀ title, Dict.get [(py "D1", [weight_one])] title
    = if bool_decide (title ∈ hits db_one [py "a"])
      then Some (masked db_one title [py "a"] [weight_one])
      else None.
Proof.
  split; [exact vectors_db_one|].
  exact (document_vectors db_one 1 [py "a"] _ _ vectors_db_one).
Defined.

(** ** The scores of a ranking *)

Lemma masked_all db title terms qv :
  length qv = length terms →
  (∀ t, t ∈ terms → title ∈ select_document_id db t) →
  masked db title terms qv = qv.
Proof.
  revert qv. induction terms as [|t terms IH]; intros [|w qv] Hlen Hall;
    try done. cbn.
  rewrite bool_decide_eq_true_2 by (apply Hall; left). f_equal.
  apply IH; [by injection Hlen|]. intros u Hu. apply Hall. by right.
Qed.

Lemma scores_get items qv tbl :
  scores items qv = Ok tbl →
  ∀ k, match Dict.get items k with
       | None => Dict.get tbl k = None
       | Some dv => ∃ c, cosine dv qv = Ok c ∧ Dict.get tbl k = Some c
       end.
Proof.
  revert tbl. induction items as [|[k0 dv0] items IH]; intros tbl Hs k.
  - cbn in Hs. by injection Hs as <-.
  - cbn in Hs. destruct (cosine dv0 qv) as [c0|] eqn:Hc; [|done].
    cbn in Hs. destruct (scores items qv) as [rest|]; [|done].
    cbn in Hs. injection Hs as <-. cbn. case_decide; [eauto|].
    by apply IH.
Qed.

Lemma sortSearchReturnTable_scores db N terms table :
  sortSearchReturnTable db N terms = Ok table →
  ∃ dvs qv, vectors db N terms = Ok (dvs, qv) ∧ scores dvs qv = Ok table.
Proof.
  unfold sortSearchReturnTable. intros Ht.
  destruct (vectors db N terms) as [[dvs qv]|] eqn:Hv; [|done].
  cbn in Ht. exists dvs, qv. split; [done|].
  assert (NoDup (Dict.keys dvs)) as Hnd.
  { unfold vectors in Hv. eapply vectors_loop_NoDup; [done|]. constructor. }
  unfold Dict.items in Ht. rewrite table_loop_scores in Ht by done.
  by destruct (scores dvs qv).
Qed.

Lemma table_db_one : sortSearchReturnTable db_one 1 [py "a"] = Ok table_one.
Proof.
  unfold sortSearchReturnTable. rewrite vectors_db_one. reflexivity.
Qed.

(** X10. The table of [sortSearchReturnTable] holds exactly the documents
    with a posting for at least one query term, and the score of a
    document is the cosine between the query vector and the query vector
    with 0 at the terms the document has no posting for. *)
Theorem rank_table_scores (db : postings) (N : nat) (terms : list pystr)
  (table : Dict.t np_float) :
  sortSearchReturnTable db N terms = Ok table →
  ∃ dvs qv, vectors db N terms = Ok (dvs, qv) ∧
    ∀ title,
      match Dict.get table title with
      | None => title ∉ hits db terms
      | Some c =>
          title ∈ hits db terms ∧
          cosine (masked db title terms qv) qv = Ok c
      end.
Proof.
  intros (dvs & qv & Hv & Hs)%sortSearchReturnTable_scores.
  exists dvs, qv. split; [done|]. intros title.
  destruct (vectors_get _ _ _ _ _ Hv) as [Hlen Hget].
  pose proof (scores_get _ _ _ Hs title) as Hscore. rewrite Hget in Hscore.
  case_bool_decide as Hhit.
  - by destruct Hscore as (c & Hc & ->).
  - by rewrite Hscore.
Qed.

Lemma rank_table_scores_witness :
  sortSearchReturnTable db_one 1 [py "a"] = Ok table_one ∧
  ∃ dvs qv, vectors db_one 1 [py "a"] = Ok (dvs, qv) ∧
    ∀ title,
      match Dict.get table_one title with
      | None => title ∉ hits db_one [py "a"]
      | Some c =>
          title ∈ hits db_one [py "a"] ∧
          cosine (masked db_one title [py "a"] qv) qv = Ok c
      end.
Proof.
  split; [exact table_db_one|].
  exact (rank_table_scores db_one 1 [py "a"] table_one table_db_one).
Defined.

(** X11. A document that [search] returns for a query has, in the table
    of [sortSearchReturnTable] for the same query, the cosine of the query
    vector with itself as its score: all the documents that match every
    term share one score. *)
Theorem search_results_share_score (db : postings) (N : nat)
  (terms : list pystr) (table : Dict.t np_float) (s : gset pystr)
  (title : pystr) :
  sortSearchReturnTable db N terms = Ok table →
  search db terms = Ok (TitlesSet s) → title ∈ s →
  ∃ dvs qv c, vectors db N terms = Ok (dvs, qv) ∧
    cosine qv qv = Ok c ∧ Dict.get table title = Some c.
Proof.
  intros (dvs & qv & Hv & Hs)%sortSearchReturnTable_scores Hsearch Hin.
  destruct (vectors_get _ _ _ _ _ Hv) as [Hlen Hget].
  destruct terms as [|t ts]; [done|].
  rewrite search_cons in Hsearch. injection Hsearch as <-.
  assert (∀ u, u ∈ t :: ts → title ∈ select_document_id db u) as Hall.
  { intros u Hu. apply (elem_of_docs_of_all db t ts title) in Hu; [|done].
    unfold docs_of, set_of_cands in Hu. by apply elem_of_list_to_set in Hu. }
  pose proof (scores_get _ _ _ Hs title) as Hscore. rewrite Hget in Hscore.
  rewrite bool_decide_eq_true_2 in Hscore.
  2:{ unfold hits. cbn. apply elem_of_app. left. apply Hall. left. }
  rewrite masked_all in Hscore by done.
  destruct Hscore as (c & Hc & Hgetc). by exists dvs, qv, c.
Qed.

Lemma search_results_share_score_witness :
  sortSearchReturnTable db_one 1 [py "a"] = Ok table_one ∧
  search db_one [py "a"] = Ok (TitlesSet {[ py "D1" ]}) ∧
  py "D1" ∈ ({[ py "D1" ]} : gset pystr) ∧
  ∃ dvs qv c, vectors db_one 1 [py "a"] = Ok (dvs, qv) ∧
    cosine qv qv = Ok c ∧ Dict.get table_one (py "D1") = Some c.
Proof.
  assert (search db_one [py "a"] = Ok (TitlesSet {[ py "D1" ]})) as Hsearch
    by (vm_compute; reflexivity).
  assert (py "D1" ∈ ({[ py "D1" ]} : gset pystr)) as Hin
    by (by apply elem_of_singleton).
  split; [exact table_db_one|]. split; [exact Hsearch|]. split; [exact Hin|].
  exact (search_results_share_score db_one 1 [py "a"] table_one _ _
           table_db_one Hsearch Hin).
Defined.

(** ** The best document of a ranking *)

Lemma best_step_scan_title (tbl : list (pystr * np_float))
  (st : np_float * pystr) :
  (foldl best_step st tbl).2 = st.2 ∨ (foldl best_step st tbl).2 ∈ Dict.keys tbl.
Proof.
  revert st. induction tbl as [|[k c] tbl IH]; intros st; cbn; [by left|].
  destruct (IH (best_step st (k, c))) as [Heq|Hin].
  - rewrite Heq. unfold best_step. cbn. destruct (np_lt st.1 c); cbn.
    + right. left.
    + by left.
  - right. by right.
Qed.

(** X21. The title [sortSearch] returns is the empty string or a document
    with a posting for at least one of the query terms. *)
Theorem sortSearch_hit (db : postings) (N : nat) (terms : list pystr)
  (best : pystr) :
  sortSearch db N terms = Ok best →
  best = [] ∨ best ∈ hits db terms.
Proof.
  unfold sortSearch. intros Hbest.
  destruct (vectors db N terms) as [[dvs qv]|e] eqn:Hv; [|done].
  cbn in Hbest. rewrite best_loop_scores in Hbest. unfold Dict.items in Hbest.
  destruct (scores dvs qv) as [tbl|e] eqn:Hs; [|done]. cbn in Hbest.
  destruct (foldl best_step (Finite (-1), []) tbl) as [m b] eqn:Hfold.
  injection Hbest as ->.
  destruct (best_step_scan_title tbl (Finite (-1), [])) as [H|H];
    rewrite Hfold in H; cbn in H; [by left|right].
  rewrite (scores_keys _ _ _ Hs) in H. apply Dict_get_keys in H as [dv Hdv].
  destruct (vectors_get _ _ _ _ _ Hv) as [_ Hget]. rewrite Hget in Hdv.
  by case_bool_decide.
Qed.

Lemma sortSearch_db_one : sortSearch db_one 1 [py "a"] = Ok (py "D1").
Proof.
  unfold sortSearch. rewrite vectors_db_one. cbn [mbind result_bind Dict.items].
  assert (weight_one = 1%R) as ->.
  { unfold weight_one. cbn [INR]. rewrite ln_1. lra. }
  unfold Dict.items. cbn [best_loop]. unfold cosine, np_dot.
  rewrite decide_True by done.
  cbn [mbind result_bind foldr zip_with]. unfold np_norm.
  cbn [map foldr]. replace (1 * 1 + 0)%R with 1%R by lra.
  rewrite sqrt_1. unfold np_div.
  destruct (Req_dec_T (1 * 1) 0) as [H|_]; [lra|].
  unfold np_lt. destruct (Rlt_dec (-1) (1 / (1 * 1))) as [_|H]; [done|].
  exfalso. apply H. lra.
Qed.

Lemma sortSearch_hit_witness :
  sortSearch db_one 1 [py "a"] = Ok (py "D1") ∧
  (py "D1" = [] ∨ py "D1" ∈ hits db_one [py "a"]).
Proof.
  split; [exact sortSearch_db_one|].
  exact (sortSearch_hit db_one 1 [py "a"] (py "D1") sortSearch_db_one).
Defined.

(** ** The builds over the first hundred documents *)

Lemma generateFromOpeningText_loop_take parse articles count db :
  count ≤ 100 →
  generateFromOpeningText_loop parse articles count db
  = generate_loop parse (opening_view <$> take (100 - count) articles) db.
Proof.
  revert count db. induction articles as [|a articles IH]; intros count db Hc.
  - by rewrite take_nil.
  - cbn [generateFromOpeningText_loop]. case_decide as Hfull.
    + by replace (100 - count) with 0 by lia.
    + replace (100 - count) with (S (100 - (count + 1))) by lia.
      cbn [take fmap list_fmap generate_loop].
      change (WikipediaArticle.text (opening_view a))
        with (WikipediaArticle.opening_text a).
      change (WikipediaArticle.id (opening_view a))
        with (WikipediaArticle.id a).
      destruct (count_loop _ _) as [dict|e]; [|done].
      destruct (insert_loop _ _ _ _) as [db' [[]|e]]; [|done].
      apply IH. lia.
Qed.

(** X12. [generateFromOpeningText] does on the collection what [generate]
    does on its first 100 documents with the opening text as the body:
    the documents after the hundredth are neither tokenized nor
    indexed. *)
Theorem generateFromOpeningText_first_100 (parse : pystr → list MeCabNode)
  (collection : list WikipediaArticle.t) (db : postings) :
  generateFromOpeningText parse collection db
  = generate parse (opening_view <$> take 100 collection) db.
Proof.
  unfold generateFromOpeningText, generate.
  by rewrite generateFromOpeningText_loop_take by lia.
Qed.

Lemma generate_ngrams_loop_take isspace nfkc articles count table :
  count ≤ 100 →
  generate_ngrams_loop isspace nfkc articles count table
  = table ++ concat (map (ngram_rows isspace nfkc)
                       (take (100 - count) articles)).
Proof.
  revert count table.
  induction articles as [|a articles IH]; intros count table Hc.
  - rewrite take_nil. cbn. by rewrite app_nil_r.
  - cbn [generate_ngrams_loop]. case_decide as Hfull.
    + replace (100 - count) with 0 by lia. cbn. by rewrite app_nil_r.
    + replace (100 - count) with (S (100 - (count + 1))) by lia.
      cbn [take map concat]. rewrite IH by lia. by rewrite <- app_assoc.
Qed.

(** X13. [generate_ngrams] appends to the table [ngrams], for each of the
    first 100 documents in turn, one row per window of [divide_ngrams] on
    its text, in the order of the windows and with repeated windows kept;
    the rows already in the table and the other documents are left
    alone. *)
Theorem generate_ngrams_rows (isspace : codepoint → bool)
  (normalize_NFKC : pystr → pystr) (collection : list WikipediaArticle.t)
  (table : list ngram_posting) :
  generate_ngrams isspace normalize_NFKC collection table
  = table ++ concat (map (λ a,
        map (λ ngram, NgramPosting ngram (WikipediaArticle.id a))
          (divide_ngrams isspace normalize_NFKC (WikipediaArticle.text a)))
      (take 100 collection)).
Proof.
  unfold generate_ngrams.
  by rewrite generate_ngrams_loop_take by lia.
Qed.

(** ** Building the index twice *)

Lemma insert_loop_app dict article_id terms db :
  insert_loop dict article_id terms db
  = (db ++ (insert_loop dict article_id terms []).1,
     (insert_loop dict article_id terms []).2).
Proof.
  assert (∀ db0, insert_loop dict article_id terms (db ++ db0)
                 = (db ++ (insert_loop dict article_id terms db0).1,
                    (insert_loop dict article_id terms db0).2)) as H.
  { revert db. induction terms as [|t terms IH]; intros db db0; cbn; [done|].
    destruct (Dict.getitem dict t); [|done].
    rewrite <- app_assoc. apply IH. }
  specialize (H []). by rewrite app_nil_r in H.
Qed.

Lemma generate_loop_app parse articles db :
  generate_loop parse articles db
  = (db ++ (generate_loop parse articles []).1,
     (generate_loop parse articles []).2).
Proof.
  assert (∀ db0, generate_loop parse articles (db ++ db0)
                 = (db ++ (generate_loop parse articles db0).1,
                    (generate_loop parse articles db0).2)) as H.
  { revert db. induction articles as [|a articles IH]; intros db db0; cbn;
      [done|].
    destruct (count_loop _ _) as [dict|e]; [|done].
    rewrite (insert_loop_app _ _ _ (db ++ db0)), (insert_loop_app _ _ _ db0).
    destruct (insert_loop dict (WikipediaArticle.id a) (Dict.keys dict) [])
      as [rows [[]|e]]; cbn; [|by rewrite app_assoc].
    rewrite <- app_assoc. apply IH. }
  specialize (H []). by rewrite app_nil_r in H.
Qed.

Lemma select_document_id_app db1 db2 t :
  select_document_id (db1 ++ db2) t
  = select_document_id db1 t ++ select_document_id db2 t.
Proof.
  unfold select_document_id, postings. by rewrite filter_app, map_app.
Qed.

Lemma search_ext db1 db2 terms :
  (∀ t, docs_of db1 t = docs_of db2 t) →
  search db1 terms = search db2 terms.
Proof.
  intros Hdocs. rewrite !search_total. destruct terms as [|t ts]; [done|].
  do 2 f_equal. apply set_eq. intros d. rewrite !elem_of_docs_of_all.
  split; intros Hall u Hu; [rewrite <- Hdocs | rewrite Hdocs]; by apply Hall.
Qed.

(** X14. [generate] does not clear the table: run a second time on the
    same collection it appends the same rows again.  The duplicates do
    not change any result of [search], but they double the number of
    posting rows of every term of the collection, which is the [df]
    of the ranking weights. *)
Theorem generate_twice (parse : pystr → list MeCabNode)
  (collection : list WikipediaArticle.t) (db : postings) :
  let rows := (generate parse collection []).1 in
  (generate parse collection db).1 = db ++ rows ∧
  (generate parse collection (generate parse collection db).1).1
    = db ++ rows ++ rows ∧
  (∀ terms, search (db ++ rows ++ rows) terms = search (db ++ rows) terms) ∧
  ∀ t, length (select_document_id (rows ++ rows) t)
       = 2 * length (select_document_id rows t).
Proof.
  intros rows. unfold generate in *.
  assert ((generate_loop parse collection db).1 = db ++ rows) as H1
    by (by rewrite generate_loop_app).
  split; [done|]. split; [|split].
  - rewrite generate_loop_app, H1. cbn. by rewrite <- app_assoc.
  - intros terms. apply search_ext. intros t. unfold docs_of, set_of_cands.
    rewrite !select_document_id_app. apply set_eq. intros d.
    rewrite !elem_of_list_to_set, !elem_of_app. tauto.
  - intros t. rewrite select_document_id_app, length_app. lia.
Qed.

(** ** The document collection *)

Section CollectionFacts.
Import WikipediaCollection.
Variable json : Type.
Variable json_loads : pystr → result json.

Lemma yield_rows_app (l1 l2 : list row) :
  yield_rows json json_loads (l1 ++ l2)
  = match yield_rows json json_loads l1 with
    | (arts, Raise e) => (arts, Raise e)
    | (arts, Ok _) =>
        let '(rest, stop) := yield_rows json json_loads l2 in
        (arts ++ rest, stop)
    end.
Proof.
  induction l1 as [|r l1 IH]; cbn.
  - by destruct (yield_rows json json_loads l2).
  - destruct (make_article json json_loads (row_title r) r); [|done].
    rewrite IH. destruct (yield_rows json json_loads l1) as [arts [[]|e]];
      [|done].
    by destruct (yield_rows json json_loads l2).
Qed.

Lemma get_all_documents_from_rows (cursor : list row) :
  get_all_documents_from json json_loads cursor
  = yield_rows json json_loads cursor.
Proof.
  funelim (get_all_documents_from json json_loads cursor).
  - destruct cursor as [|r cursor]; [done|].
    unfold BLOCK_SIZE in e. cbn in e. discriminate e.
  - rewrite <- (take_drop BLOCK_SIZE cursor) at 2. rewrite yield_rows_app.
    destruct (yield_rows json json_loads (take BLOCK_SIZE cursor))
      as [arts [[]|e]]; [|done].
    by rewrite (H arts (Ok ()) ()).
Qed.

Lemma make_article_decoded (title : pystr) (r : row) :
  (∃ x, json_loads (row_auxiliary_text r) = Ok x) →
  (∃ x, json_loads (row_categories r) = Ok x) →
  (∃ x, json_loads (row_headings r) = Ok x) →
  make_article json json_loads title r
  = Ok (WikipediaArticle.Make title (row_text r) (row_opening_text r)).
Proof.
  intros [x1 H1] [x2 H2] [x3 H3]. unfold make_article.
  by rewrite H1, H2, H3.
Qed.

Lemma yield_rows_decoded (rows : list row) :
  Forall (decodes json json_loads) rows →
  yield_rows json json_loads rows = (article_of_row <$> rows, Ok ()).
Proof.
  induction 1 as [|r rows (H1 & H2 & H3) _ IH]; [done|]. cbn.
  rewrite (make_article_decoded _ r H1 H2 H3), IH. done.
Qed.

Lemma yield_rows_elem_of (rows : list row) (a : WikipediaArticle.t) :
  a ∈ (yield_rows json json_loads rows).1 →
  ∃ r, r ∈ rows ∧ make_article json json_loads (row_title r) r = Ok a.
Proof.
  induction rows as [|r rows IH]; cbn; [intros H; inversion H|].
  destruct (make_article json json_loads (row_title r) r) as [a0|e] eqn:Hr;
    [|intros H; inversion H].
  destruct (yield_rows json json_loads rows) as [rest stop]. cbn [fst] in *.
  intros [->|Hin]%elem_of_cons.
  - exists r. split; [left|done].
  - destruct (IH Hin) as (r' & Hr' & Ha). exists r'. split; [by right|done].
Qed.

Lemma make_article_title (title : pystr) (r : row) (a : WikipediaArticle.t) :
  make_article json json_loads title r = Ok a → WikipediaArticle.id a = title.
Proof.
  unfold make_article.
  destruct (json_loads (row_auxiliary_text r)); cbn; [|done].
  destruct (json_loads (row_categories r)); cbn; [|done].
  destruct (json_loads (row_headings r)); cbn; [|done]. by intros [= <-].
Qed.

Lemma fetchone_unique (c : t) (r : row) :
  NoDup (row_title <$> articles c) → r ∈ articles c →
  fetchone_by_title c (row_title r) = Some r.
Proof.
  unfold fetchone_by_title. induction (articles c) as [|r0 rows IH];
    [intros _ H; inversion H|].
  cbn [fmap list_fmap]. intros [Hnotin Hnd]%NoDup_cons Hin.
  rewrite filter_cons. apply elem_of_cons in Hin as [->|Hin].
  - by rewrite decide_True.
  - rewrite decide_False; [by apply IH|]. intros Heq. apply Hnotin.
    rewrite Heq. apply list_elem_of_fmap. by exists r.
Qed.
End CollectionFacts.

(** X15. [get_all_documents] yields one article per row of the table, in
    table order, whatever the size of the blocks it fetches: it stops
    with the error of the first row whose JSON columns do not decode,
    after yielding the rows before it, and yields every row when all of
    them decode. *)
Theorem get_all_documents_rows (json : Type) (json_loads : pystr → result json)
  (c : WikipediaCollection.t) :
  WikipediaCollection.get_all_documents json json_loads c
    = WikipediaCollection.yield_rows json json_loads
        (WikipediaCollection.articles c) ∧
  (Forall (decodes json json_loads) (WikipediaCollection.articles c) →
   WikipediaCollection.get_all_documents json json_loads c
   = (article_of_row <$> WikipediaCollection.articles c, Ok ())).
Proof.
  unfold WikipediaCollection.get_all_documents.
  rewrite get_all_documents_from_rows. split; [done|].
  apply yield_rows_decoded.
Qed.

(** X16. Every article that [get_all_documents] yields is found again by
    its id: when the titles of the table are distinct,
    [get_document_by_id] on the id of a yielded article returns an
    article with the same title, text and opening text. *)
Theorem get_document_by_id_yielded (json : Type)
  (json_loads : pystr → result json) (c : WikipediaCollection.t)
  (a : WikipediaArticle.t) :
  NoDup (WikipediaCollection.row_title <$> WikipediaCollection.articles c) →
  a ∈ (WikipediaCollection.get_all_documents json json_loads c).1 →
  WikipediaCollection.get_document_by_id json json_loads c
    (WikipediaArticle.id a) = Ok (Some a).
Proof.
  intros Hnd Hin. unfold WikipediaCollection.get_all_documents in Hin.
  rewrite get_all_documents_from_rows in Hin.
  apply yield_rows_elem_of in Hin as (r & Hr & Ha).
  pose proof (make_article_title _ _ _ _ _ Ha) as Hid.
  unfold WikipediaCollection.get_document_by_id.
  rewrite Hid, (fetchone_unique c r Hnd Hr), Ha. done.
Qed.

Lemma get_document_by_id_yielded_witness :
  NoDup (WikipediaCollection.row_title
           <$> WikipediaCollection.articles (WikipediaCollection.init two_rows)) ∧
  WikipediaArticle.Make (py "D2") (py "b") (py "b")
    ∈ (WikipediaCollection.get_all_documents unit accept_json
         (WikipediaCollection.init two_rows)).1 ∧
  WikipediaCollection.get_document_by_id unit accept_json
    (WikipediaCollection.init two_rows)
    (WikipediaArticle.id (WikipediaArticle.Make (py "D2") (py "b") (py "b")))
  = Ok (Some (WikipediaArticle.Make (py "D2") (py "b") (py "b"))).
Proof.
  assert (NoDup (WikipediaCollection.row_title
            <$> WikipediaCollection.articles
                  (WikipediaCollection.init two_rows))) as Hnd.
  { apply (bool_decide_unpack _). vm_compute. exact I. }
  assert (WikipediaArticle.Make (py "D2") (py "b") (py "b")
          ∈ (WikipediaCollection.get_all_documents unit accept_json
               (WikipediaCollection.init two_rows)).1) as Hin.
  { unfold WikipediaCollection.get_all_documents.
    rewrite get_all_documents_from_rows. cbn. right. left. }
  split; [exact Hnd|]. split; [exact Hin|].
  exact (get_document_by_id_yielded unit accept_json _ _ Hnd Hin).
Defined.

(** X17. The two lookups by title agree, and they answer [None] exactly
    when no row of the table has the title. *)
Theorem lookups_by_title (json : Type) (json_loads : pystr → result json)
  (c : WikipediaCollection.t) (title : pystr) :
  WikipediaCollection.find_article_by_title json json_loads c title
    = WikipediaCollection.get_document_by_id json json_loads c title ∧
  (WikipediaCollection.get_document_by_id json json_loads c title = Ok None
   ↔ title ∉ WikipediaCollection.row_title <$> WikipediaCollection.articles c).
Proof.
  unfold WikipediaCollection.find_article_by_title,
    WikipediaCollection.get_document_by_id,
    WikipediaCollection.fetchone_by_title.
  destruct (filter _ (WikipediaCollection.articles c)) as [|r rows] eqn:Hf.
  - cbn. split; [done|]. split; [|done]. intros _.
    intros (r & -> & Hr)%list_elem_of_fmap.
    assert (r ∈ filter (λ r0, WikipediaCollection.row_title r0
                              = WikipediaCollection.row_title r)
                  (WikipediaCollection.articles c)) as Hin
      by (by apply list_elem_of_filter).
    rewrite Hf in Hin. inversion Hin.
  - assert (r ∈ filter (λ r0, WikipediaCollection.row_title r0 = title)
                  (WikipediaCollection.articles c)) as Hin
      by (rewrite Hf; left).
    apply list_elem_of_filter in Hin as [Htitle Hin]. cbn. rewrite Htitle.
    split; [done|]. split.
    + by destruct (WikipediaCollection.make_article _ _ _ _).
    + intros Hno. exfalso. apply Hno. apply list_elem_of_fmap. by exists r.
Qed.

(** ** The word game *)

Section GameFacts.
Import Kadai4.
Variable parse : pystr → list MeCabNode.
Variable db : postings.
Variable json_dumps : pystr → pystr.

Lemma action_running (g : game) (query : pystr) (terms : list pystr) :
  gameEnd g = false →
  extractWords parse query FilterWords.shouldBeIncluded = Ok terms →
  ∃ titles, search db (wordsState g ++ terms) = Ok titles ∧
    (action parse db json_dumps g query).1
    = if decide (len_titles titles = 0) then Game true []
      else Game false (wordsState g ++ terms).
Proof.
  intros Hrun Hterms. unfold action. rewrite Hrun, Hterms. cbn zeta.
  destruct (search db (wordsState g ++ terms)) as [titles|e] eqn:Hs;
    [|by rewrite search_total in Hs].
  exists titles. split; [done|]. repeat case_decide; done.
Qed.

Lemma action_ok (g : game) (query : pystr) :
  game_ok db g → game_ok db (action parse db json_dumps g query).1.
Proof.
  intros Hok. destruct (gameEnd g) eqn:Hend.
  - unfold game_ok in Hok. rewrite Hend in Hok.
    unfold action. rewrite Hend. case_decide; cbn.
    + unfold game_ok. cbn. by left.
    + unfold game_ok. by rewrite Hend.
  - destruct (extractWords parse query FilterWords.shouldBeIncluded)
      as [terms|e] eqn:Hterms.
    + destruct (action_running g query terms Hend Hterms)
        as (titles & Hsearch & ->).
      case_decide as Hn; unfold game_ok; cbn; [done|].
      right. exists titles. split; [done|lia].
    + unfold action. by rewrite Hend, Hterms.
Qed.
End GameFacts.

(** X18. Between any two requests of the word game the globals are in
    one of two shapes: the game is over and no word is kept, or the game
    is running and the words said so far (if any) still match at least
    one article. *)
Theorem play_invariant (parse : pystr → list MeCabNode) (db : postings)
  (json_dumps : pystr → pystr) (queries : list pystr) :
  let g := Kadai4.play parse db json_dumps Kadai4.initial queries in
  if Kadai4.gameEnd g then Kadai4.wordsState g = []
  else Kadai4.wordsState g = [] ∨
       ∃ titles, search db (Kadai4.wordsState g) = Ok titles ∧
                 0 < Kadai4.len_titles titles.
Proof.
  cbn zeta. change (game_ok db (Kadai4.play parse db json_dumps
                                  Kadai4.initial queries)).
  unfold Kadai4.play.
  assert (game_ok db Kadai4.initial) as Hinit by (by left).
  revert Hinit. generalize Kadai4.initial.
  induction queries as [|q queries IH]; intros g Hg; [done|].
  cbn. apply IH. by apply action_ok.
Qed.

(** X19. While the game runs the number of matching articles never
    grows: when words have been said and a request leaves the game
    running, the articles matching the words after the request are at
    most as many as those matching the words before it. *)
Theorem action_narrows (parse : pystr → list MeCabNode) (db : postings)
  (json_dumps : pystr → pystr) (g : Kadai4.game) (query : pystr) :
  Kadai4.gameEnd g = false → Kadai4.wordsState g ≠ [] →
  Kadai4.gameEnd (Kadai4.action parse db json_dumps g query).1 = false →
  ∃ before after,
    search db (Kadai4.wordsState g) = Ok before ∧
    search db (Kadai4.wordsState
                 (Kadai4.action parse db json_dumps g query).1) = Ok after ∧
    Kadai4.len_titles after ≤ Kadai4.len_titles before.
Proof.
  intros Hrun Hws Hrun'.
  destruct (extractWords parse query FilterWords.shouldBeIncluded)
    as [terms|e] eqn:Hterms.
  - destruct (action_running parse db json_dumps g query terms Hrun Hterms)
      as (titles & Hsearch & Hstate).
    rewrite Hstate in *. case_decide as Hn; [done|]. cbn [Kadai4.wordsState].
    destruct (Kadai4.wordsState g) as [|w ws] eqn:Hg; [done|].
    cbn [app] in *. rewrite search_cons in Hsearch. injection Hsearch as <-.
    exists (TitlesSet (docs_of_all db w ws)),
           (TitlesSet (docs_of_all db w (ws ++ terms))).
    split; [apply search_cons|]. split; [apply search_cons|].
    cbn [Kadai4.len_titles]. apply subseteq_size. intros d.
    rewrite !elem_of_docs_of_all. intros Hall u Hu. apply Hall.
    rewrite app_comm_cons. apply elem_of_app. by left.
  - assert ((Kadai4.action parse db json_dumps g query).1 = g) as ->
      by (unfold Kadai4.action; by rewrite Hrun, Hterms).
    destruct (search db (Kadai4.wordsState g)) as [titles|e'] eqn:Hs;
      [|by rewrite search_total in Hs].
    exists titles, titles. split; [done|]. split; [done|]. lia.
Qed.

Lemma action_narrows_witness :
  Kadai4.gameEnd (Kadai4.Game false [py "cat"]) = false ∧
  Kadai4.wordsState (Kadai4.Game false [py "cat"]) ≠ [] ∧
  Kadai4.gameEnd (Kadai4.action char_nodes db_letters (λ text, text)
                    (Kadai4.Game false [py "cat"]) (py "d")).1 = false ∧
  ∃ before after,
    search db_letters (Kadai4.wordsState (Kadai4.Game false [py "cat"]))
      = Ok before ∧
    search db_letters
      (Kadai4.wordsState
         (Kadai4.action char_nodes db_letters (λ text, text)
            (Kadai4.Game false [py "cat"]) (py "d")).1) = Ok after ∧
    Kadai4.len_titles after ≤ Kadai4.len_titles before.
Proof.
  assert (Kadai4.gameEnd (Kadai4.Game false [py "cat"]) = false) as H1
    by reflexivity.
  assert (Kadai4.wordsState (Kadai4.Game false [py "cat"]) ≠ []) as H2
    by discriminate.
  assert (Kadai4.gameEnd (Kadai4.action char_nodes db_letters (λ text, text)
            (Kadai4.Game false [py "cat"]) (py "d")).1 = false) as H3
    by (vm_compute; reflexivity).
  split; [exact H1|]. split; [exact H2|]. split; [exact H3|].
  exact (action_narrows char_nodes db_letters (λ text, text) _ _ H1 H2 H3).
Defined.

(** X20. In a running game with no word said yet, a request from which
    no word is extracted ends the game: the search on no words gives no
    article, so the words are cleared and the lost-game text is sent. *)
Theorem action_no_words (parse : pystr → list MeCabNode) (db : postings)
  (json_dumps : pystr → pystr) (g : Kadai4.game) (query : pystr) :
  Kadai4.gameEnd g = false → Kadai4.wordsState g = [] →
  extractWords parse query FilterWords.shouldBeIncluded = Ok [] →
  Kadai4.action parse db json_dumps g query
  = (Kadai4.Game true [], Ok (json_dumps Kadai4.lost_text)).
Proof.
  intros Hrun Hws Hterms. unfold Kadai4.action.
  by rewrite Hrun, Hterms, Hws.
Qed.

Lemma action_no_words_witness :
  Kadai4.gameEnd Kadai4.initial = false ∧
  Kadai4.wordsState Kadai4.initial = [] ∧
  extractWords char_nodes [] FilterWords.shouldBeIncluded = Ok [] ∧
  Kadai4.action char_nodes db_letters (λ text, text) Kadai4.initial []
  = (Kadai4.Game true [], Ok Kadai4.lost_text).
Proof.
  assert (extractWords char_nodes [] FilterWords.shouldBeIncluded = Ok [])
    as H3 by reflexivity.
  split; [reflexivity|]. split; [reflexivity|]. split; [exact H3|].
  exact (action_no_words char_nodes db_letters (λ text, text) Kadai4.initial []
           eq_refl eq_refl H3).
Defined.
